(** * A shallow embedding of the randcast mock demo (BLS DKG demo)

    The driver [src/crates/randcast-mock-demo/src/main.rs] runs a Joint-Feldman
    distributed key generation among [n] nodes with threshold [t], commits the
    result to a mock controller, requests a randomness, threshold-signs the
    request message, fulfills the signature task and reads the randomness
    output.  The driver is embedded as written; the crates it calls
    (the curve scheme, the DKG phase engine, the in-memory board and the
    controller) are modelled from the spec.

    Curve model.  Every group used by the scheme (the scalar field, G1, G2 and
    the pairing target) is a cyclic group of the same prime order [r], so it
    is isomorphic to the additive group of the scalar field.  We represent a
    point by its discrete logarithm with respect to a fixed base, i.e. by a
    field element: scalar multiplication becomes field multiplication, point
    addition becomes field addition and the pairing becomes the (bilinear)
    field product.  The field is kept abstract ([F : fieldType]).
    Serialisation with bincode is injective and is elided: the controller
    receives the curve values themselves. *)

Set Warnings "-notation-overridden -ambiguous-paths".
From HB Require Import structures.
From mathcomp Require Import ssreflect ssrfun ssrbool eqtype ssrnat seq div.
From mathcomp Require Import choice fintype bigop ssralg poly rat.
From Stdlib Require Import String Ascii BinInt.

Set Implicit Arguments.
Unset Strict Implicit.
Unset Printing Implicit Defensive.

Import GRing.Theory.

(** Strings (node ids, messages) compared with [String.eqb]. *)
HB.instance Definition _ := hasDecEq.Build string String.eqb_spec.

(** ** [is_all_same] (main.rs, lines 236-239)

    [let first = arr.next().unwrap(); arr.all(|item| item == first)]:
    the [unwrap] on an empty iterator panics, which we model as [None]. *)
Section IsAllSame.
Variable T : eqType.

Definition is_all_same (arr : seq T) : option bool :=
  match arr with
  | [::] => None
  | first :: rest => Some (all (fun item => item == first) rest)
  end.

End IsAllSame.

(** Results of fallible calls ([Result<T, E>] in the source). *)
Inductive result (A E : Type) : Type :=
| Ok (a : A)
| Err (e : E).
Arguments Ok {A E} a.
Arguments Err {A E} e.

Definition unwrap {A E : Type} (r : result A E) : option A :=
  match r with Ok a => Some a | Err _ => None end.

(** ** The curve scheme (the [threshold_bls] crate) *)

(** Modelled from the spec: the external curve/scheme primitive of
    section 4.4 and 6 ([scalar_eval], [commit], [verify_share],
    [partial_sign], [partial_verify], [aggregate], [verify]). *)
Section Scheme.
Local Open Scope ring_scope.

Variable F : fieldType.
(** the base point of the public-key group *)
Variable g : F.
(** the evaluation point of share index [i] *)
Variable idx_point : nat -> F.
(** hashing of a message onto the signature group *)
Variable hash_to_curve : string -> F.

(** A polynomial is its vector of coefficients, constant term first
    ([Poly<C>] wraps a [Vec]). *)
Definition poly_eval_at (p : seq F) (x : F) : F :=
  foldr (fun a acc => acc * x + a) 0 p.

(** [Eval { index, value }] *)
Record Eval := mkEval { eval_index : nat; eval_value : F }.

(** [poly.eval(i)] evaluates at the point of index [i]. *)
Definition poly_eval (p : seq F) (i : nat) : Eval :=
  mkEval i (poly_eval_at p (idx_point i)).

(** [poly.public_key()]: the constant coefficient. *)
Definition public_key (p : seq F) : F := nth 0 p 0.

(** [poly.commit()]: every coefficient times the base point. *)
Definition commit (p : seq F) : seq F := map (fun c => c * g) p.

(** [poly.add(&other)]: coefficient-wise sum. *)
Fixpoint poly_add (a b : seq F) : seq F :=
  match a, b with
  | [::], _ => b
  | _, [::] => a
  | x :: a', y :: b' => (x + y) :: poly_add a' b'
  end.

Definition poly_sum (ps : seq (seq F)) : seq F := foldr poly_add [::] ps.

(** Sums and products of scalars, as folds. *)
Definition sum_list (l : seq F) : F := foldr +%R 0 l.
Definition prod_list (l : seq F) : F := foldr *%R 1 l.

(** Lagrange coefficient at zero of index [i] among the indices [idxs]. *)
Definition lagrange_coeff (idxs : seq nat) (i : nat) : F :=
  prod_list [seq idx_point j / (idx_point j - idx_point i) | j <- idxs & j != i].

Definition interpolate_at_zero (evs : seq Eval) : F :=
  sum_list [seq lagrange_coeff (map eval_index evs) (eval_index e) * eval_value e | e <- evs].

(** Keeps the first evaluation of every index. *)
Fixpoint dedup_index (seen : seq nat) (evs : seq Eval) : seq Eval :=
  match evs with
  | [::] => [::]
  | e :: evs' =>
      if eval_index e \in seen then dedup_index seen evs'
      else e :: dedup_index (eval_index e :: seen) evs'
  end.

Inductive SchemeError :=
| NotEnoughPartialSignatures (have need : nat).

(** [Poly::recover(t, evals)]: fails on fewer than [t] distinct indices,
    otherwise interpolates at zero through the first [t] of them. *)
Definition recover (t : nat) (evs : seq Eval) : result F SchemeError :=
  let d := dedup_index [::] evs in
  if (size d < t)%N then Err (NotEnoughPartialSignatures (size d) t)
  else Ok (interpolate_at_zero (take t d)).

(** [Share { index, private }] *)
Record Share := mkShare { share_index : nat; share_private : F }.

(** [partial_sign(share, msg)]: the share's signature on the message, tagged
    with the signer's index. *)
Definition partial_sign (s : Share) (msg : string) : Eval :=
  mkEval (share_index s) (share_private s * hash_to_curve msg).

(** pairing check [e(sig, g) == e(H(msg), pk)] *)
Definition verify (pk : F) (msg : string) (sig : F) : bool :=
  sig * g == hash_to_curve msg * pk.

Definition partial_verify (public : seq F) (msg : string) (p : Eval) : bool :=
  verify (eval_value (poly_eval public (eval_index p))) msg (eval_value p).

(** [aggregate(threshold, partials)] *)
Definition aggregate (t : nat) (partials : seq Eval) : result F SchemeError :=
  recover t partials.

End Scheme.

(** Collects the values of a sequence of [Result]s, [None] at the first error
    (the [.unwrap()] of the driver then panics). *)
Fixpoint collect_ok {A E : Type} (rs : seq (result A E)) : option (seq A) :=
  match rs with
  | [::] => Some [::]
  | Ok a :: rs' =>
      match collect_ok rs' with Some l => Some (a :: l) | None => None end
  | Err _ :: _ => None
  end.

(** ** The DKG phase engine and the board (the [dkg_core] crate and
    [randcast_mock_demo::test_helpers::InMemoryBoard]) *)

(** Modelled from the spec: the Joint-Feldman phase engine of section 4.3
    ([Phase0 -> Phase1 -> Phase2 -> {Output | Phase3}]) and the broadcast
    board of section 4.2 (two append-only channels keyed by sender, a
    repeated publication by the same sender is rejected, reading a round
    that is not complete is an error). *)
Section DKG.
Local Open Scope ring_scope.

Variable F : fieldType.
Variable g : F.
Variable idx_point : nat -> F.

(** [Node { index, public_key }] *)
Record Node := mkNode { node_index : nat; node_public : F }.

(** [Group { nodes, threshold }] *)
Record Group := mkGroup { group_nodes : seq Node; group_threshold : nat }.

Inductive DKGError :=
| InvalidThreshold
| PublicKeyNotFound
| AlreadyPublished
| IncompleteRound.

(** [Group::new(nodes, t)]: the invariant [1 <= t <= n] of the data model. *)
Definition group_new (nodes : seq Node) (t : nat) : result Group DKGError :=
  if (0 < t <= size nodes)%N then Ok (mkGroup nodes t) else Err InvalidThreshold.

Definition group_indices (gr : Group) : seq nat := map node_index (group_nodes gr).

(** Phase 1 payload: the shares addressed to every other participant and the
    Feldman commitment of the dealer's polynomial. *)
Record BundledShares := mkBundledShares {
  bs_dealer : nat;
  bs_shares : seq (nat * F);
  bs_public : seq F }.

Inductive Status := Valid | Complaint.

Definition is_complaint (s : Status) : bool :=
  if s is Complaint then true else false.

(** Phase 2 payload: one status per dealer. *)
Record BundledResponses := mkBundledResponses {
  br_share_idx : nat;
  br_responses : seq (nat * Status) }.

Record Board := mkBoard {
  board_shares : seq BundledShares;
  board_responses : seq BundledResponses }.

Definition board_new : Board := mkBoard [::] [::].

Definition publish_shares (b : Board) (bs : BundledShares) : result Board DKGError :=
  if bs_dealer bs \in map bs_dealer (board_shares b) then Err AlreadyPublished
  else Ok (mkBoard (rcons (board_shares b) bs) (board_responses b)).

Definition publish_responses (b : Board) (br : BundledResponses) : result Board DKGError :=
  if br_share_idx br \in map br_share_idx (board_responses b) then Err AlreadyPublished
  else Ok (mkBoard (board_shares b) (rcons (board_responses b) br)).

(** [read_all] of a round: an error unless every participant has published. *)
Definition read_shares (gr : Group) (snap : seq BundledShares)
  : result (seq BundledShares) DKGError :=
  if all (fun i => i \in map bs_dealer snap) (group_indices gr) then Ok snap
  else Err IncompleteRound.

Definition read_responses (gr : Group) (snap : seq BundledResponses)
  : result (seq BundledResponses) DKGError :=
  if all (fun i => i \in map br_share_idx snap) (group_indices gr) then Ok snap
  else Err IncompleteRound.

(** Phase 0: own public key ([phase0.info.public_key]), own index, group
    and secret polynomial. *)
Record Phase0 := mkPhase0 {
  p0_public : F; p0_index : nat; p0_group : Group; p0_poly : seq F }.
Record Phase1 := mkPhase1 { p1_index : nat; p1_group : Group; p1_poly : seq F }.
(** Phase 2 keeps the bundles of the other dealers. *)
Record Phase2 := mkPhase2 {
  p2_index : nat; p2_group : Group; p2_poly : seq F; p2_bundles : seq BundledShares }.

(** [DKGOutput { public, share }] *)
Record DKGOutput := mkDKGOutput { out_public : seq F; out_share : Share F }.

Inductive Phase2Result :=
| Output (o : DKGOutput)
| GoToPhase3 (p : Phase2).

Definition default_node : Node := mkNode 0 0.

(** [joint_feldman::DKG::new(private, group)]: the own index is the one of
    the group node whose public key is [private * g]; the secret polynomial
    has degree [t - 1] and constant term [private], its other coefficients
    are the [draws]. *)
Definition dkg_new (private : F) (gr : Group) (draws : seq F) : result Phase0 DKGError :=
  let nodes := group_nodes gr in
  let k := find (fun nd => node_public nd == private * g) nodes in
  if (k < size nodes)%N then
    Ok (mkPhase0 (private * g) (node_index (nth default_node nodes k)) gr
          (private :: take (group_threshold gr).-1 draws))
  else Err PublicKeyNotFound.

(** [phase0.run(board, rng)]: publishes the shares and the commitment. *)
Definition shares_of (p : Phase0) : BundledShares :=
  mkBundledShares (p0_index p)
    [seq (node_index nd, poly_eval_at (p0_poly p) (idx_point (node_index nd)))
       | nd <- group_nodes (p0_group p) & node_index nd != p0_index p]
    (commit g (p0_poly p)).

Definition phase0_run (b : Board) (p : Phase0) : result (Board * Phase1) DKGError :=
  match publish_shares b (shares_of p) with
  | Ok b' => Ok (b', mkPhase1 (p0_index p) (p0_group p) (p0_poly p))
  | Err e => Err e
  end.

(** The share a bundle addresses to participant [me]. *)
Definition share_for (me : nat) (bs : BundledShares) : option F :=
  let k := find (fun s => s.1 == me) (bs_shares bs) in
  if (k < size (bs_shares bs))%N then Some (nth (0%N, 0) (bs_shares bs) k).2 else None.

(** Feldman verification of the share addressed to [me]. *)
Definition verify_share (me : nat) (bs : BundledShares) : bool :=
  match share_for me bs with
  | Some s => s * g == poly_eval_at (bs_public bs) (idx_point me)
  | None => false
  end.

Definition responses_of (me : nat) (bundles : seq BundledShares) : BundledResponses :=
  mkBundledResponses me
    [seq (bs_dealer bs, if verify_share me bs then Valid else Complaint) | bs <- bundles].

(** [phase1.run(board, &shares)]: verifies the shares addressed to this node
    and publishes one response per other dealer. *)
Definition phase1_run (b : Board) (snap : seq BundledShares) (p : Phase1)
  : result (Board * Phase2) DKGError :=
  match read_shares (p1_group p) snap with
  | Err e => Err e
  | Ok bundles =>
      let others := [seq bs <- bundles | bs_dealer bs != p1_index p] in
      match publish_responses b (responses_of (p1_index p) others) with
      | Err e => Err e
      | Ok b' => Ok (b', mkPhase2 (p1_index p) (p1_group p) (p1_poly p) others)
      end
  end.

Definition complained (resps : seq BundledResponses) (i : nat) : bool :=
  has (fun br => has (fun r => (r.1 == i) && is_complaint r.2) (br_responses br)) resps.

Definition find_bundle (bundles : seq BundledShares) (i : nat) : option BundledShares :=
  let k := find (fun bs => bs_dealer bs == i) bundles in
  if (k < size bundles)%N then Some (nth (mkBundledShares 0 [::] [::]) bundles k) else None.

(** The commitment and the share received from dealer [i]. *)
Definition dealer_public (p : Phase2) (i : nat) : seq F :=
  if i == p2_index p then commit g (p2_poly p)
  else match find_bundle (p2_bundles p) i with
       | Some bs => bs_public bs
       | None => [::]
       end.

Definition dealer_share (p : Phase2) (i : nat) : F :=
  if i == p2_index p then poly_eval_at (p2_poly p) (idx_point (p2_index p))
  else match find_bundle (p2_bundles p) i with
       | Some bs => odflt 0 (share_for (p2_index p) bs)
       | None => 0
       end.

(** [phase2.run(board, &responses)]: the qualified dealers are those without
    complaint; with at least [t] of them the node outputs the sum of their
    commitments and of their shares, otherwise a justification round follows. *)
Definition phase2_run (b : Board) (snap : seq BundledResponses) (p : Phase2)
  : result Phase2Result DKGError :=
  match read_responses (p2_group p) snap with
  | Err e => Err e
  | Ok resps =>
      let qual := [seq i <- group_indices (p2_group p) | ~~ complained resps i] in
      if (size qual < group_threshold (p2_group p))%N then Ok (GoToPhase3 p)
      else Ok (Output (mkDKGOutput
                 (poly_sum [seq dealer_public p i | i <- qual])
                 (mkShare (p2_index p) (sum_list [seq dealer_share p i | i <- qual]))))
  end.

(** What happens during a run, in order: [Phase1Done i] when node [i] has
    published its shares ([phase0.run], "Phase 1: Publishes shares" in
    main.rs), [Phase2Done i] when it has published its responses
    ([phase1.run]), [OutputDone i] when it has run [phase2.run]. *)
Inductive Event :=
| Phase1Done (i : nat)
| Phase2Done (i : nat)
| OutputDone (i : nat).

Fixpoint run_phase0s (b : Board) (ps : seq Phase0)
  : option (Board * seq Phase1 * seq Event) :=
  match ps with
  | [::] => Some (b, [::], [::])
  | p :: ps' =>
      match phase0_run b p with
      | Err _ => None
      | Ok (b', p1) =>
          match run_phase0s b' ps' with
          | Some (b'', p1s, ev) => Some (b'', p1 :: p1s, Phase1Done (p0_index p) :: ev)
          | None => None
          end
      end
  end.

Fixpoint run_phase1s (b : Board) (snap : seq BundledShares) (ps : seq Phase1)
  : option (Board * seq Phase2 * seq Event) :=
  match ps with
  | [::] => Some (b, [::], [::])
  | p :: ps' =>
      match phase1_run b snap p with
      | Err _ => None
      | Ok (b', p2) =>
          match run_phase1s b' snap ps' with
          | Some (b'', p2s, ev) => Some (b'', p2 :: p2s, Phase2Done (p1_index p) :: ev)
          | None => None
          end
      end
  end.

Fixpoint run_phase2s (b : Board) (snap : seq BundledResponses) (ps : seq Phase2)
  : option (seq Phase2Result * seq Event) :=
  match ps with
  | [::] => Some ([::], [::])
  | p :: ps' =>
      match phase2_run b snap p with
      | Err _ => None
      | Ok r =>
          match run_phase2s b snap ps' with
          | Some (rs, ev) => Some (r :: rs, OutputDone (p2_index p) :: ev)
          | None => None
          end
      end
  end.

(** The three loops of [run_dkg] (main.rs, lines 159-180), with the two
    board snapshots and the events of the run. *)
Record DKGRun := mkDKGRun {
  run_shares : seq BundledShares;
  run_responses : seq BundledResponses;
  run_results : seq Phase2Result;
  run_events : seq Event }.

Definition dkg_phases (board : Board) (phase0s : seq Phase0) : option DKGRun :=
  match run_phase0s board phase0s with
  | None => None
  | Some (board1, phase1s, ev1) =>
      let shares := board_shares board1 in
      match run_phase1s board1 shares phase1s with
      | None => None
      | Some (board2, phase2s, ev2) =>
          let responses := board_responses board2 in
          match run_phase2s board2 responses phase2s with
          | None => None
          | Some (results, ev3) => Some (mkDKGRun shares responses results (ev1 ++ ev2 ++ ev3))
          end
      end
  end.

Definition output_of (r : Phase2Result) : option DKGOutput :=
  match r with
  | Output out => Some out
  | GoToPhase3 _ => None
  end.

(** [run_dkg] (main.rs, lines 149-193): [None] is a panic (an [unwrap], the
    [unreachable!] on [GoToPhase3] or the failed [assert!]). *)
Definition run_dkg (board : Board) (phase0s : seq Phase0) : option (seq DKGOutput) :=
  match dkg_phases board phase0s with
  | None => None
  | Some r =>
      match collect_ok [seq match output_of res with
                            | Some o => Ok o
                            | None => Err tt
                            end | res <- run_results r] with
      | None => None
      | Some outputs =>
          if is_all_same [seq out_public output | output <- outputs] == Some true
          then Some outputs else None
      end
  end.

(** [setup] (main.rs, lines 195-234): [draw i 0] is the private key of
    participant [i], [draw i k] for [0 < k] the coefficients of its secret
    polynomial. *)
Definition setup (n t : nat) (draw : nat -> nat -> F) : option (Board * seq Phase0) :=
  let keypairs := [seq (draw i 0%N, draw i 0%N * g) | i <- iota 0 n] in
  let nodes := [seq mkNode i (draw i 0%N * g) | i <- iota 0 n] in
  match group_new nodes t with
  | Err _ => None
  | Ok group =>
      match collect_ok [seq dkg_new (draw i 0%N) group [seq draw i k | k <- iota 1 t.-1]
                         | i <- iota 0 n] with
      | None => None
      | Some phase0s => Some (board_new, phase0s)
      end
  end.

End DKG.

(** ** The controller ([randcast_mock_demo::contract::Controller]) *)

(** Modelled from the spec: the coordination state machine of section 4.5,
    the controller surface of section 6 and the error taxonomy of section 7.
    Policy choices the spec leaves open are fixed as follows: the commit
    quorum is all [n] members (the end-to-end scenario of section 8 ends with
    [n] committers); a repeated commit or fulfillment is rejected without side
    effect; the message of a signature task is its seed; group indices and
    epochs start at 1 (the driver reads [get_group(1)]). *)
Section Controller.
Local Open Scope ring_scope.

Variable F : fieldType.
Variable g : F.
Variable hash_to_curve : string -> F.
(** the externally visible randomness, a deterministic function of the
    fulfilled aggregated signature *)
Variable RandomnessOutput : Type.
Variable derive_output : F -> RandomnessOutput.

(** group size and threshold of the demo configuration (section 8: t=3, n=5) *)
Definition DEFAULT_GROUP_SIZE : nat := 5.
Definition DEFAULT_THRESHOLD : nat := 3.

(** A registered node: [index] is its registration order. *)
Record CNode := mkCNode {
  id_address : string;
  dkg_public_key : F;
  url : string;
  signing_address : string;
  cnode_index : nat }.

Inductive GroupState := Forming | DKGRequested | Committing | Available.

Definition group_state_eqb (a b : GroupState) : bool :=
  match a, b with
  | Forming, Forming | DKGRequested, DKGRequested
  | Committing, Committing | Available, Available => true
  | _, _ => false
  end.

(** One node's reported DKG result. *)
Record CommitEntry := mkCommitEntry {
  ce_id : string;
  ce_public_key : F;
  ce_partial_public_key : F;
  ce_disqualified : seq string }.

Record CGroup := mkCGroup {
  cg_index : nat;
  cg_epoch : nat;
  cg_size : nat;
  cg_threshold : nat;
  cg_state : GroupState;
  cg_public_key : option F;
  cg_members : seq string;
  cg_committers : seq string;
  cg_commits : seq CommitEntry }.

Record DKGTask := mkDKGTask { task_group_index : nat; task_epoch : nat }.

Record SignatureTask := mkSignatureTask {
  st_index : nat;
  st_message : string;
  st_group_index : nat }.

Inductive TaskState := Pending | Fulfilled.

Record Controller := mkController {
  c_entropy : Z;
  c_nodes : seq CNode;
  c_group : CGroup;
  c_dkg_task : option DKGTask;
  c_tasks : seq (SignatureTask * TaskState);
  c_pending : seq SignatureTask;
  c_next_index : nat;
  c_rewards : seq (nat * seq string);
  c_last_output : option RandomnessOutput }.

(** [Controller::new(initial_entropy)] *)
Definition controller_new (initial_entropy : Z) : Controller :=
  mkController initial_entropy [::]
    (mkCGroup 1 0 DEFAULT_GROUP_SIZE DEFAULT_THRESHOLD Forming None [::] [::] [::])
    None [::] [::] 0 [::] None.

Definition set_group (c : Controller) (gr : CGroup) : Controller :=
  mkController (c_entropy c) (c_nodes c) gr (c_dkg_task c) (c_tasks c)
    (c_pending c) (c_next_index c) (c_rewards c) (c_last_output c).

Definition set_group_state (gr : CGroup) (st : GroupState) : CGroup :=
  mkCGroup (cg_index gr) (cg_epoch gr) (cg_size gr) (cg_threshold gr) st
    (cg_public_key gr) (cg_members gr) (cg_committers gr) (cg_commits gr).

(** [node_register(id_address, dkg_public_key, url, signing_address)]: only
    while the group is [Forming], never twice for one id; the node gets the
    next index; with the last expected node the group is frozen and a DKG
    task for the next epoch is requested. *)
Definition node_register (c : Controller) (id : string) (pk : F) (u addr : string)
  : bool * Controller :=
  let gr := c_group c in
  if ~~ group_state_eqb (cg_state gr) Forming then (false, c)
  else if id \in map id_address (c_nodes c) then (false, c)
  else
    let nodes := rcons (c_nodes c) (mkCNode id pk u addr (size (c_nodes c))) in
    if size nodes == cg_size gr then
      let gr' := mkCGroup (cg_index gr) (cg_epoch gr).+1 (cg_size gr) (cg_threshold gr)
                   DKGRequested None (map id_address nodes) [::] [::] in
      (true, mkController (c_entropy c) nodes gr'
               (Some (mkDKGTask (cg_index gr) (cg_epoch gr).+1))
               (c_tasks c) (c_pending c) (c_next_index c) (c_rewards c) (c_last_output c))
    else
      (true, mkController (c_entropy c) nodes gr (c_dkg_task c) (c_tasks c)
               (c_pending c) (c_next_index c) (c_rewards c) (c_last_output c)).

(** [emit_dkg_task()]: surfaces the requested task and enters [Committing];
    [None] when there is none. *)
Definition emit_dkg_task (c : Controller) : option (DKGTask * Controller) :=
  match c_dkg_task c with
  | Some task =>
      if group_state_eqb (cg_state (c_group c)) DKGRequested
      then Some (task, set_group c (set_group_state (c_group c) Committing))
      else None
  | None => None
  end.

(** [commit_dkg(id_address, group_index, epoch, public_key, partial_public_key,
    disqualified_nodes)]: only in [Committing], for the outstanding task, from
    a member that has not committed yet and with the public key of the
    previous commitments; the [n]-th consistent commitment makes the group
    [Available] with its public key. *)
Definition commit_dkg (c : Controller) (id : string) (group_index epoch : nat)
  (pk ppk : F) (disqualified : seq string) : bool * Controller :=
  let gr := c_group c in
  if ~~ group_state_eqb (cg_state gr) Committing then (false, c)
  else if (group_index != cg_index gr) || (epoch != cg_epoch gr) then (false, c)
  else if id \notin cg_members gr then (false, c)
  else if id \in map ce_id (cg_commits gr) then (false, c)
  else if has (fun e => ce_public_key e != pk) (cg_commits gr) then (false, c)
  else
    let commits := rcons (cg_commits gr) (mkCommitEntry id pk ppk disqualified) in
    let committers := map ce_id commits in
    let gr' :=
      if size commits == cg_size gr
      then mkCGroup (cg_index gr) (cg_epoch gr) (cg_size gr) (cg_threshold gr)
             Available (Some pk) (cg_members gr) committers commits
      else mkCGroup (cg_index gr) (cg_epoch gr) (cg_size gr) (cg_threshold gr)
             Committing None (cg_members gr) committers commits in
    (true, set_group c gr').

(** [get_group(group_index)]: a snapshot, past [Forming]. *)
Definition get_group (c : Controller) (group_index : nat) : option CGroup :=
  let gr := c_group c in
  if (group_index == cg_index gr) && ~~ group_state_eqb (cg_state gr) Forming
  then Some gr else None.

(** [request(seed)]: a pending signature task bound to the available group. *)
Definition request (c : Controller) (seed : string) : bool * Controller :=
  let gr := c_group c in
  if ~~ group_state_eqb (cg_state gr) Available then (false, c)
  else
    let task := mkSignatureTask (c_next_index c) seed (cg_index gr) in
    (true, mkController (c_entropy c) (c_nodes c) gr (c_dkg_task c)
             (rcons (c_tasks c) (task, Pending)) (rcons (c_pending c) task)
             (c_next_index c).+1 (c_rewards c) (c_last_output c)).

(** [emit_signature_task()]: the next pending task, [None] when there is none. *)
Definition emit_signature_task (c : Controller) : option (SignatureTask * Controller) :=
  match c_pending c with
  | task :: rest =>
      Some (task, mkController (c_entropy c) (c_nodes c) (c_group c) (c_dkg_task c)
                    (c_tasks c) rest (c_next_index c) (c_rewards c) (c_last_output c))
  | [::] => None
  end.

Definition find_task (tasks : seq (SignatureTask * TaskState)) (index : nat)
  : option (SignatureTask * TaskState) :=
  let k := find (fun ts => st_index ts.1 == index) tasks in
  if (k < size tasks)%N then Some (nth (mkSignatureTask 0 EmptyString 0, Pending) tasks k)
  else None.

Definition mark_fulfilled (tasks : seq (SignatureTask * TaskState)) (index : nat)
  : seq (SignatureTask * TaskState) :=
  [seq if st_index ts.1 == index then (ts.1, Fulfilled) else ts | ts <- tasks].

(** [fulfill(id_address, index, signature, partial_signatures)]: only for a
    pending task, after re-verifying the aggregated signature against the
    group public key and the task message; records the rewarded ids and the
    randomness output. *)
Definition fulfill (c : Controller) (id : string) (index : nat) (sig : F)
  (partial_signatures : seq (string * Eval F)) : bool * Controller :=
  match find_task (c_tasks c) index with
  | None => (false, c)
  | Some (_, Fulfilled) => (false, c)
  | Some (task, Pending) =>
      match cg_public_key (c_group c) with
      | None => (false, c)
      | Some pk =>
          if ~~ verify g hash_to_curve pk (st_message task) sig then (false, c)
          else
            (true, mkController (c_entropy c) (c_nodes c) (c_group c) (c_dkg_task c)
                     (mark_fulfilled (c_tasks c) index) (c_pending c) (c_next_index c)
                     (rcons (c_rewards c) (index, map fst partial_signatures))
                     (Some (derive_output sig)))
      end
  end.

(** [get_last_output()] *)
Definition get_last_output (c : Controller) : result RandomnessOutput string :=
  match c_last_output c with
  | Some out => Ok out
  | None => Err "no output available"%string
  end.

(** The state changes of the controller: one call of a mutating method
    ([get_group] and [get_last_output] only read the state). *)
Inductive ctl_step (c : Controller) : Controller -> Prop :=
| step_register id pk u addr : ctl_step c (node_register c id pk u addr).2
| step_emit_dkg_task task c' : emit_dkg_task c = Some (task, c') -> ctl_step c c'
| step_commit id gi ep pk ppk d : ctl_step c (commit_dkg c id gi ep pk ppk d).2
| step_request seed : ctl_step c (request c seed).2
| step_emit_signature_task task c' :
    emit_signature_task c = Some (task, c') -> ctl_step c c'
| step_fulfill id index sig ps : ctl_step c (fulfill c id index sig ps).2.

(** Any sequence of such calls. *)
Inductive ctl_steps : Controller -> Controller -> Prop :=
| steps_refl c : ctl_steps c c
| steps_cons c c' c'' : ctl_step c c' -> ctl_steps c' c'' -> ctl_steps c c''.

(** Node indices are the registration order. *)
Definition indices_ok (c : Controller) : bool :=
  map cnode_index (c_nodes c) == iota 0 (size (c_nodes c)).

(** Sequences of calls none of which is a successful [fulfill]. *)
Inductive ctl_steps_unfulfilled : Controller -> Controller -> Prop :=
| unf_refl c : ctl_steps_unfulfilled c c
| unf_cons c c' c'' :
    ctl_step c c' ->
    (forall id index sig ps, fulfill c id index sig ps <> (true, c')) ->
    ctl_steps_unfulfilled c' c'' -> ctl_steps_unfulfilled c c''.

End Controller.

(** ** The driver ([main], main.rs, lines 18-147) *)

(** [i.to_string()] *)
Fixpoint nat_to_string_aux (fuel n : nat) (acc : string) : string :=
  match fuel with
  | 0 => acc
  | fuel'.+1 =>
      let acc' := String (ascii_of_nat (48 + n %% 10)) acc in
      if n < 10 then acc' else nat_to_string_aux fuel' (n %/ 10) acc'
  end.

Definition nat_to_string (n : nat) : string := nat_to_string_aux n.+1 n EmptyString.

(** [String::from("0x") + &i.to_string()] *)
Definition node_id (i : nat) : string := String.append "0x" (nat_to_string i).

(** Reading a string back as a decimal numeral (used in the proofs):
    [decimal_value s acc] appends the digits of [s] to [acc]. *)
Fixpoint decimal_value (s : string) (acc : nat) : nat :=
  match s with
  | EmptyString => acc
  | String c s' => decimal_value s' (acc * 10 + (nat_of_ascii c - 48))
  end.

Definition is_digit (c : ascii) : bool := (48 <= nat_of_ascii c <= 57)%N.

Fixpoint all_digits (s : string) : bool :=
  match s with
  | EmptyString => true
  | String c s' => is_digit c && all_digits s'
  end.

(** A loop of controller calls, each returning a [bool]. *)
Fixpoint run_calls {C A : Type} (step : C -> A -> bool * C) (c : C) (calls : seq A)
  : seq bool * C :=
  match calls with
  | [::] => ([::], c)
  | a :: calls' =>
      let (r, c') := step c a in
      let (rs, c'') := run_calls step c' calls' in
      (r :: rs, c'')
  end.

Section Main.
Local Open Scope ring_scope.

Variable F : fieldType.
Variable g : F.
Variable idx_point : nat -> F.
Variable hash_to_curve : string -> F.
Variable RandomnessOutput : Type.
Variable derive_output : F -> RandomnessOutput.

(** What the driver prints (and the final controller). *)
Record MainTrace := mkMainTrace {
  mt_register : seq bool;
  mt_dkg_task : DKGTask;
  mt_outputs : seq (DKGOutput F);
  mt_commit_calls : seq (string * nat * nat * F * F);
  mt_commit_res : seq bool;
  mt_group : CGroup F;
  mt_request : bool;
  mt_signature_task : SignatureTask;
  mt_partial_sigs : seq (Eval F);
  mt_sig : F;
  mt_fulfill_res : seq bool;
  mt_output : RandomnessOutput;
  mt_controller : Controller F RandomnessOutput }.

Definition register_step (c : Controller F RandomnessOutput) (ip : nat * Phase0 F)
  : bool * Controller F RandomnessOutput :=
  node_register c (node_id ip.1) (p0_public ip.2) EmptyString (node_id ip.1).

Definition commit_step (c : Controller F RandomnessOutput) (call : string * nat * nat * F * F)
  : bool * Controller F RandomnessOutput :=
  let: (id, gi, ep, pk, ppk) := call in commit_dkg c id gi ep pk ppk [::].

(** the map of partial signatures by node id passed to [fulfill] *)
Definition partial_signatures_map (partial_sigs : seq (Eval F)) : seq (string * Eval F) :=
  [seq (node_id ip.1, ip.2) | ip <- zip (iota 0 (size partial_sigs)) partial_sigs].

Definition fulfill_step (signature_index : nat) (sig : F) (partial_sigs : seq (Eval F))
  (c : Controller F RandomnessOutput) (i : nat) : bool * Controller F RandomnessOutput :=
  fulfill g hash_to_curve derive_output c (node_id i) signature_index sig
    (partial_signatures_map partial_sigs).

Definition initial_entropy : Z := 0x8762_4875_6548_6346%Z.

Definition demo_msg : string := "ujehwsndfgljkhrlkg"%string.

(** [main]: [draw] stands for the random generator; [None] is a panic. *)
Definition main (draw : nat -> nat -> F) : option MainTrace :=
  let controller := controller_new F RandomnessOutput initial_entropy in
  let '(t, n) := (3%nat, 5%nat) in
  match setup g n t draw with
  | None => None
  | Some (board, phase0s) =>
  let (reg_res, controller) :=
    run_calls register_step controller (zip (iota 0 (size phase0s)) phase0s) in
  match emit_dkg_task controller with
  | None => None
  | Some (dkg_task, controller) =>
  let group_index := task_group_index dkg_task in
  let group_epoch := task_epoch dkg_task in
  match run_dkg g idx_point board phase0s with
  | None => None
  | Some outputs =>
  match outputs with
  | [::] => None
  | output0 :: _ =>
  let public_poly := out_public output0 in
  let pubkey := public_key public_poly in
  let calls := [seq (node_id i, group_index, group_epoch, pubkey,
                     eval_value (poly_eval idx_point public_poly i)) | i <- iota 0 n] in
  let (commit_res, controller) := run_calls commit_step controller calls in
  match get_group controller 1 with
  | None => None
  | Some group =>
  let msg := demo_msg in
  let (request_res, controller) := request controller msg in
  match emit_signature_task controller with
  | None => None
  | Some (signature_task, controller) =>
  let signature_index := st_index signature_task in
  let partial_sigs := [seq partial_sign hash_to_curve (out_share output) msg | output <- outputs] in
  if ~~ all (partial_verify g idx_point hash_to_curve public_poly msg) partial_sigs then None
  else
  match aggregate idx_point t partial_sigs with
  | Err _ => None
  | Ok sig =>
  if ~~ verify g hash_to_curve pubkey msg sig then None
  else
  let (fulfill_res, controller) :=
    run_calls (fulfill_step signature_index sig partial_sigs) controller (iota 0 n) in
  match get_last_output controller with
  | Err _ => None
  | Ok randomness_output =>
  Some (mkMainTrace reg_res dkg_task outputs calls commit_res group request_res
          signature_task partial_sigs sig fulfill_res randomness_output controller)
  end end end end end end end end.

End Main.

(** ** Interpolation polynomials (used in the proofs only) *)
Section InterpolationPolys.
Local Open Scope ring_scope.

Variable F : fieldType.
Variable X : nat -> F.
Variable idxs : seq nat.

(** the Lagrange basis polynomial of index [i]: 1 at [X i], 0 at the other points *)
Definition lagrange_basis (i : nat) : {poly F} :=
  (\prod_(j <- idxs | j != i) (X i - X j))^-1 *:
    \prod_(j <- idxs | j != i) ('X - (X j)%:P).

Definition lagrange_poly (y : nat -> F) : {poly F} :=
  \sum_(i <- idxs) y i *: lagrange_basis i.

End InterpolationPolys.

(** ** Auxiliary definitions for the proofs: the states of an honest run *)
Section RunDefs.
Local Open Scope ring_scope.

Variable F : fieldType.
Variable g : F.
Variable X : nat -> F.

Definition to_phase1 (p : Phase0 F) : Phase1 F :=
  mkPhase1 (p0_index p) (p0_group p) (p0_poly p).

Definition others_of (snap : seq (BundledShares F)) (me : nat) :=
  [seq bs <- snap | bs_dealer bs != me].

Definition to_phase2 (snap : seq (BundledShares F)) (p : Phase1 F) : Phase2 F :=
  mkPhase2 (p1_index p) (p1_group p) (p1_poly p) (others_of snap (p1_index p)).

(** The honest setup of [n] participants with threshold [t]: participant
    [i] has the private key [draw i 0] and the secret polynomial of
    coefficients [draw i 0, draw i 1, ..., draw i (t-1)]. *)
Variables (n t : nat) (draw : nat -> nat -> F).

Definition hpub (i : nat) : F := draw i 0%N * g.

Definition honest_poly (i : nat) : seq F := draw i 0%N :: [seq draw i k | k <- iota 1 t.-1].

Definition honest_group : Group F := mkGroup [seq mkNode i (hpub i) | i <- iota 0 n] t.

Definition honest_phase0 (i : nat) : Phase0 F := mkPhase0 (hpub i) i honest_group (honest_poly i).

(** The joint secret polynomial: the sum of the dealers' polynomials. *)
Definition group_poly : seq F := poly_sum [seq honest_poly i | i <- iota 0 n].

Definition honest_output (i : nat) : DKGOutput F :=
  mkDKGOutput (poly_sum [seq commit g (honest_poly j) | j <- iota 0 n])
    (mkShare i (sum_list [seq poly_eval_at (honest_poly j) (X i) | j <- iota 0 n])).

End RunDefs.

(** The participant index a phase-2 result belongs to. *)
Definition result_index (F : fieldType) (r : Phase2Result F) : nat :=
  match r with
  | Output o => share_index (out_share o)
  | GoToPhase3 p => p2_index p
  end.

(** ** A concrete instance over the rationals

    Base point [1], evaluation points [i + 1], coefficients [3 i + k + 1],
    a constant hash and the signature itself as output: used to run the
    definitions on small inputs. *)
Definition rat_base : rat := 1.
Definition rat_point (i : nat) : rat := i.+1%:R.
Definition rat_draw (i k : nat) : rat := (i * 3 + k + 1)%:R.
Definition rat_hash (msg : string) : rat := 2%:R.
Definition rat_derive (sig : rat) : rat := sig.

(** ** Lagrange interpolation at zero *)
Section Interpolation.
Local Open Scope ring_scope.

Variable F : fieldType.
Variable X : nat -> F.

Lemma poly_eval_at_horner (p : seq F) x : poly_eval_at p x = horner_rec p x.
Proof. by elim: p => [|a p IH] //=; rewrite IH. Qed.

Lemma poly_eval_at_zero (p : seq F) : poly_eval_at p 0 = public_key p.
Proof. by case: p => [|a p] //=; rewrite mulr0 add0r. Qed.

Lemma uniq_map_neq (s : seq nat) i j :
  uniq (map X s) -> i \in s -> j \in s -> i != j -> X i != X j.
Proof.
elim: s => [|a s IH] //= /andP [Ha Hu].
rewrite !inE => /orP [/eqP -> | Hi] /orP [/eqP -> | Hj] Hij.
- by rewrite eqxx in Hij.
- by apply/eqP => E; move: Ha; rewrite E map_f.
- by apply/eqP => E; move: Ha; rewrite -E map_f.
- exact: IH.
Qed.

Variable idxs : seq nat.
Hypothesis Huniq : uniq (map X idxs).

Let Hu : uniq idxs := map_uniq Huniq.

Lemma size_lagrange_basis i :
  i \in idxs -> (size (lagrange_basis X idxs i) <= size idxs)%N.
Proof.
move=> Hi; apply: leq_trans (size_scale_leq _ _) _.
rewrite -big_filter size_prod_XsubC -rem_filter // size_rem //.
by case: idxs Hi.
Qed.

Lemma lagrange_basis_at i k :
  i \in idxs -> k \in idxs -> (lagrange_basis X idxs i).[X k] = (i == k)%:R.
Proof.
move=> Hi Hk; rewrite hornerZ horner_prod.
have -> : \prod_(j <- idxs | j != i) ('X - (X j)%:P).[X k] =
          \prod_(j <- idxs | j != i) (X k - X j).
  by apply: eq_bigr => j _; rewrite hornerXsubC.
case: (eqVneq i k) => [<- | Hik].
  apply: mulVf; rewrite prodf_seq_neq0; apply/allP => j Hj; apply/implyP => Hji.
  rewrite subr_eq0 eq_sym.
  exact: (uniq_map_neq Huniq Hj Hi Hji).
apply/eqP; rewrite mulf_eq0; apply/orP; right.
rewrite prodf_seq_eq0; apply/hasP; exists k => //.
by rewrite eq_sym Hik subrr eqxx.
Qed.

Lemma size_lagrange_poly y : (size (lagrange_poly X idxs y) <= size idxs)%N.
Proof.
rewrite /lagrange_poly big_seq.
elim/big_ind: _ => [|p q Hp Hq|i Hi].
- by rewrite size_poly0.
- by apply: leq_trans (size_polyD _ _) _; rewrite geq_max Hp Hq.
- exact: leq_trans (size_scale_leq _ _) (size_lagrange_basis Hi).
Qed.

Lemma lagrange_poly_at y k : k \in idxs -> (lagrange_poly X idxs y).[X k] = y k.
Proof.
move=> Hk; rewrite /lagrange_poly horner_sum (bigD1_seq k) //=.
rewrite hornerZ lagrange_basis_at // eqxx mulr1 big1_seq ?addr0 //.
move=> i /andP [Hik Hi]; rewrite hornerZ lagrange_basis_at //.
by rewrite (negbTE Hik) mulr0.
Qed.

Lemma lagrange_poly_unique (f : seq F) :
  (size f <= size idxs)%N ->
  lagrange_poly X idxs (fun i => poly_eval_at f (X i)) = Poly f.
Proof.
move=> Hf; apply/eqP; rewrite -subr_eq0; apply/eqP.
apply: (roots_geq_poly_eq0 (rs := map X idxs)) => //.
- apply/allP => _ /mapP [k Hk ->].
  rewrite /root hornerD hornerN lagrange_poly_at // horner_Poly.
  by rewrite poly_eval_at_horner subrr.
- rewrite size_map; apply: leq_trans (size_polyD _ _) _.
  rewrite geq_max size_lagrange_poly size_polyN.
  exact: leq_trans (size_Poly _) Hf.
Qed.

Lemma lagrange_basis_at_zero i :
  (lagrange_basis X idxs i).[0] = \prod_(j <- idxs | j != i) (X j / (X j - X i)).
Proof.
have -> : \prod_(j <- idxs | j != i) (X j / (X j - X i)) =
          \prod_(j <- idxs | j != i) ((0 - X j) / (X i - X j)).
  apply: eq_bigr => j _.
  by rewrite sub0r -[X i - X j]opprB invrN mulrN mulNr opprK.
rewrite hornerZ horner_prod prodf_div mulrC.
by congr (_ * _); apply: eq_bigr => j _; rewrite hornerXsubC.
Qed.

Lemma lagrange_coeff_big i :
  lagrange_coeff X idxs i = \prod_(j <- idxs | j != i) (X j / (X j - X i)).
Proof. by rewrite /lagrange_coeff /prod_list foldrE big_map big_filter. Qed.

(** Interpolating the evaluations of a polynomial of at most [size idxs]
    coefficients at the points of [idxs] gives its constant term. *)
Lemma lagrange_interpolation (f : seq F) :
  (size f <= size idxs)%N ->
  \sum_(i <- idxs) lagrange_coeff X idxs i * poly_eval_at f (X i) = public_key f.
Proof.
move=> Hf; rewrite -poly_eval_at_zero poly_eval_at_horner -horner_Poly.
rewrite -(lagrange_poly_unique Hf) /lagrange_poly horner_sum.
by apply: eq_bigr => i _; rewrite hornerZ lagrange_basis_at_zero lagrange_coeff_big mulrC.
Qed.

End Interpolation.

Lemma sum_list_big (F : fieldType) (I : Type) (r : seq I) (f : I -> F) :
  sum_list [seq f i | i <- r] = (\sum_(i <- r) f i)%R.
Proof. by rewrite /sum_list foldrE big_map. Qed.

(** ** Generic facts on sequences *)

Lemma uniq_map_eq_in (T V : eqType) (h : T -> V) (s : seq T) x y :
  uniq (map h s) -> x \in s -> y \in s -> h x = h y -> x = y.
Proof.
elim: s => [|a s IH] //= /andP [Ha Hu].
rewrite !inE => /orP [/eqP -> | Hx] /orP [/eqP -> | Hy] // E.
- by rewrite E (map_f h Hy) in Ha.
- by rewrite -E (map_f h Hx) in Ha.
- exact: IH.
Qed.

Lemma find_in_map (T : eqType) (U : Type) (V : eqType) (f : T -> U) (key : U -> V)
    (s : seq T) x y d :
  uniq [seq key (f z) | z <- s] -> x \in s -> key (f x) = y ->
  (find (fun u => key u == y) (map f s) < size s)%N /\
  nth d (map f s) (find (fun u => key u == y) (map f s)) = f x.
Proof.
move=> + + <-; elim: s => [|a s IH] //= /andP [Ha Hu].
rewrite inE => /orP [/eqP -> | Hx]; first by rewrite eqxx.
have -> : (key (f a) == key (f x)) = false.
  apply/negbTE; apply/eqP => E; move: Ha.
  by rewrite E (map_f (fun z => key (f z)) Hx).
by have [H1 H2] := IH Hu Hx.
Qed.

Lemma collect_ok_map (A : eqType) (B E : Type) (f : A -> result B E) (h : A -> B)
    (s : seq A) :
  (forall x, x \in s -> f x = Ok (h x)) -> collect_ok (map f s) = Some (map h s).
Proof.
elim: s => [|a s IH] //= H.
rewrite H ?mem_head // IH // => x Hx; apply: H.
by rewrite inE Hx orbT.
Qed.

Lemma all_take (T : Type) (P : pred T) (k : nat) (s : seq T) :
  all P s -> all P (take k s).
Proof.
elim: s k => [|a s IH] [|k] //= /andP [Ha Hs].
by rewrite Ha IH.
Qed.

Lemma map_all_eq (T U : Type) (P : pred T) (f g : T -> U) (s : seq T) :
  all P s -> (forall x, P x -> f x = g x) -> map f s = map g s.
Proof.
move=> + E; elim: s => [|a s IH] //= /andP [Ha Hs].
by rewrite E // IH.
Qed.

Lemma uniq_cat_head (T : eqType) (s1 s2 : seq T) x :
  uniq (s1 ++ x :: s2) -> x \notin s1.
Proof. by rewrite cat_uniq => /and3P [_ /hasPn Hn _]; apply: Hn; exact: mem_head. Qed.

Lemma all_both (T : Type) (a b c : pred T) (s : seq T) :
  (forall x, a x -> b x -> c x) -> all a s -> all b s -> all c s.
Proof.
move=> H; elim: s => [|x s IH] //= /andP [Ha Has] /andP [Hb Hbs].
by rewrite H // IH.
Qed.

Lemma is_all_same_const (T : eqType) (A : Type) (c : T) (s : seq A) :
  is_all_same [seq c | _ <- s] = if s is [::] then None else Some true.
Proof.
case: s => [|a s] //=; congr Some.
by elim: s => //= b s ->; rewrite eqxx.
Qed.

(** ** Polynomials, commitments and threshold signatures *)
Section SchemeProofs.
Local Open Scope ring_scope.

Variable F : fieldType.
Variable g : F.
Variable X : nat -> F.
Variable hash_to_curve : string -> F.

Lemma poly_eval_at_add (a b : seq F) x :
  poly_eval_at (poly_add a b) x = poly_eval_at a x + poly_eval_at b x.
Proof.
elim: a b => [|u a IH] [|v b] /=; rewrite ?add0r ?addr0 //.
by rewrite IH mulrDl addrACA.
Qed.

Lemma poly_eval_at_sum (ps : seq (seq F)) x :
  poly_eval_at (poly_sum ps) x = sum_list [seq poly_eval_at p x | p <- ps].
Proof. by elim: ps => [|p ps IH] //=; rewrite poly_eval_at_add IH. Qed.

Lemma commit_add (a b : seq F) :
  commit g (poly_add a b) = poly_add (commit g a) (commit g b).
Proof.
elim: a b => [|u a IH] [|v b] //=.
by rewrite /commit /= -/(commit g a) -/(commit g b) -IH mulrDl.
Qed.

Lemma commit_sum (ps : seq (seq F)) :
  commit g (poly_sum ps) = poly_sum [seq commit g p | p <- ps].
Proof. by elim: ps => [|p ps IH] //=; rewrite commit_add IH. Qed.

Lemma poly_eval_at_commit (p : seq F) x :
  poly_eval_at (commit g p) x = poly_eval_at p x * g.
Proof.
elim: p => [|a p IH] /=; first by rewrite mul0r.
by rewrite -/(commit g p) /= IH mulrDl mulrAC.
Qed.

Lemma public_key_commit (p : seq F) : public_key (commit g p) = public_key p * g.
Proof. by case: p => [|a p] /=; rewrite ?mul0r. Qed.

Lemma size_poly_add (a b : seq F) : size (poly_add a b) = maxn (size a) (size b).
Proof.
elim: a b => [|u a IH] [|v b] //=; rewrite ?maxn0 //.
by rewrite IH maxnSS.
Qed.

Lemma size_poly_sum (ps : seq (seq F)) k :
  all (fun p => size p <= k)%N ps -> (size (poly_sum ps) <= k)%N.
Proof.
elim: ps => [|p ps IH] //= /andP [Hp Hps].
by rewrite size_poly_add geq_max Hp IH.
Qed.

(** [dedup_index] keeps one evaluation per index, all taken from the input. *)
Lemma dedup_index_mem (seen : seq nat) (evs : seq (Eval F)) i :
  (i \in map (@eval_index F) (dedup_index seen evs)) =
  (i \in map (@eval_index F) evs) && (i \notin seen).
Proof.
elim: evs seen => [|e evs IH] seen //=.
case: ifP => Hs.
  rewrite IH inE; case: (eqVneq i (eval_index e)) => [-> | //].
  by rewrite Hs andbF.
rewrite !inE IH inE negb_or.
case: (eqVneq i (eval_index e)) => [-> | Hi] /=; last by [].
by rewrite Hs.
Qed.

Lemma dedup_index_uniq (seen : seq nat) (evs : seq (Eval F)) :
  uniq (map (@eval_index F) (dedup_index seen evs)).
Proof.
elim: evs seen => [|e evs IH] seen //=.
case: ifP => Hs //=.
by rewrite IH dedup_index_mem inE eqxx andbF.
Qed.

Lemma dedup_index_all (P : pred (Eval F)) (seen : seq nat) (evs : seq (Eval F)) :
  all P evs -> all P (dedup_index seen evs).
Proof.
elim: evs seen => [|e evs IH] seen //= /andP [He Hevs].
by case: ifP => _ /=; rewrite ?He IH.
Qed.

Lemma size_dedup_index (evs : seq (Eval F)) :
  size (dedup_index [::] evs) = size (undup (map (@eval_index F) evs)).
Proof.
rewrite -(size_map (@eval_index F)); apply: perm_size.
apply: uniq_perm; rewrite ?undup_uniq ?dedup_index_uniq // => i.
by rewrite dedup_index_mem mem_undup andbT.
Qed.

(** Interpolation of evaluations of [f] scaled by [h] gives [f(0) * h]. *)
Lemma interpolate_scaled (f : seq F) (h : F) (evs : seq (Eval F)) :
  uniq (map X (map (@eval_index F) evs)) ->
  all (fun e => eval_value e == poly_eval_at f (X (eval_index e)) * h) evs ->
  (size f <= size evs)%N ->
  interpolate_at_zero X evs = public_key f * h.
Proof.
move=> Hu Hv Hs; rewrite /interpolate_at_zero.
rewrite (map_all_eq (g := fun e => lagrange_coeff X (map (@eval_index F) evs) (eval_index e) *
                       (poly_eval_at f (X (eval_index e)) * h)) Hv).
  1: by move=> e /eqP ->.
rewrite (map_comp (fun i => lagrange_coeff X (map (@eval_index F) evs) i *
                       (poly_eval_at f (X i) * h)) (@eval_index F)) sum_list_big.
under eq_bigr do rewrite mulrA.
by rewrite -mulr_suml lagrange_interpolation // size_map.
Qed.

Lemma aggregate_ok (t : nat) (f : seq F) (h : F) (evs : seq (Eval F)) :
  {in map (@eval_index F) evs &, injective X} ->
  all (fun e => eval_value e == poly_eval_at f (X (eval_index e)) * h) evs ->
  (size f <= t)%N ->
  (t <= size (undup (map (@eval_index F) evs)))%N ->
  aggregate X t evs = Ok (public_key f * h).
Proof.
move=> Hinj Hv Hf Ht; rewrite /aggregate /recover size_dedup_index ltnNge Ht /=.
set d := dedup_index [::] evs.
have Hsd : size d = size (undup (map (@eval_index F) evs)) by rewrite size_dedup_index.
have Hsub : {subset map (@eval_index F) (take t d) <= map (@eval_index F) evs}.
  move=> i; rewrite map_take => /mem_take.
  by rewrite dedup_index_mem andbT.
congr Ok; apply: interpolate_scaled.
- rewrite map_inj_in_uniq; first by move=> x y Hx Hy; apply: Hinj; apply: Hsub.
  by rewrite map_take take_uniq // dedup_index_uniq.
- exact/all_take/dedup_index_all.
- by rewrite size_take Hsd; case: ltnP => // _; rewrite (leq_trans Hf).
Qed.

Lemma aggregate_short (t : nat) (evs : seq (Eval F)) :
  (size (undup (map (@eval_index F) evs)) < t)%N ->
  aggregate X t evs = Err (NotEnoughPartialSignatures (size (undup (map (@eval_index F) evs))) t).
Proof. by move=> Ht; rewrite /aggregate /recover size_dedup_index Ht. Qed.

End SchemeProofs.

(** ** The three loops of the DKG run *)
Section DKGLoops.
Local Open Scope ring_scope.

Variable F : fieldType.
Variable g : F.
Variable X : nat -> F.

Local Abbreviation shares_of := (shares_of g X).
Local Abbreviation phase1_run := (phase1_run g X).
Local Abbreviation phase2_run := (phase2_run g X).

Lemma run_phase0s_ok (b : Board F) (ps : seq (Phase0 F)) :
  uniq (map (@bs_dealer F) (board_shares b) ++ map (@p0_index F) ps) ->
  run_phase0s g X b ps =
  Some (mkBoard (board_shares b ++ map shares_of ps) (board_responses b),
        map (@to_phase1 F) ps, [seq Phase1Done (p0_index p) | p <- ps]).
Proof.
elim: ps b => [|p ps IH] b /=.
  by move=> _; case: b => ? ?; rewrite /= cats0.
move=> H; have Hp := uniq_cat_head H.
rewrite /phase0_run /publish_shares /= (negbTE Hp) IH /=.
- by rewrite ?map_rcons ?cat_rcons.
- by rewrite ?map_rcons ?cat_rcons.
Qed.

Lemma run_phase1s_ok (b : Board F) (snap : seq (BundledShares F)) (ps : seq (Phase1 F)) :
  uniq (map br_share_idx (board_responses b) ++ map (@p1_index F) ps) ->
  all (fun p => all (fun i => i \in map (@bs_dealer F) snap) (group_indices (p1_group p))) ps ->
  run_phase1s g X b snap ps =
  Some (mkBoard (board_shares b) (board_responses b ++
          [seq responses_of g X (p1_index p) (others_of snap (p1_index p)) | p <- ps]),
        map (to_phase2 snap) ps, [seq Phase2Done (p1_index p) | p <- ps]).
Proof.
elim: ps b => [|p ps IH] b /=.
  by move=> _; case: b => ? ?; rewrite /= cats0.
move=> H /andP [Hr Hall]; have Hp := uniq_cat_head H.
rewrite /phase1_run /read_shares Hr /publish_responses /= (negbTE Hp) IH //=.
- by rewrite ?map_rcons ?cat_rcons.
- by rewrite ?map_rcons ?cat_rcons.
Qed.

Lemma run_phase2s_ok (b : Board F) (snap : seq (BundledResponses)) (ps : seq (Phase2 F))
    (h : Phase2 F -> Phase2Result F) :
  (forall p, List.In p ps -> phase2_run b snap p = Ok (h p)) ->
  run_phase2s g X b snap ps = Some (map h ps, [seq OutputDone (p2_index p) | p <- ps]).
Proof.
elim: ps => [|p ps IH] //= H.
have -> : phase2_run b snap p = Ok (h p) by apply: H; left.
by rewrite IH // => q Hq; apply: H; right.
Qed.

(** Barriers: a phase runs only on a complete snapshot of the round before. *)
Lemma phase1_run_complete b snap (p : Phase1 F) r :
  phase1_run b snap p = Ok r ->
  all (fun i => i \in map (@bs_dealer F) snap) (group_indices (p1_group p)).
Proof. by rewrite /phase1_run /read_shares; case: ifP. Qed.

Lemma phase2_run_complete b snap (p : Phase2 F) r :
  phase2_run b snap p = Ok r ->
  all (fun i => i \in map (@br_share_idx) snap) (group_indices (p2_group p)).
Proof. by rewrite /phase2_run /read_responses; case: ifP. Qed.

Lemma run_phase0s_some b (ps : seq (Phase0 F)) b' p1s ev :
  run_phase0s g X b ps = Some (b', p1s, ev) ->
  p1s = map (@to_phase1 F) ps /\ ev = [seq Phase1Done (p0_index p) | p <- ps].
Proof.
elim: ps b b' p1s ev => [|p ps IH] b b' p1s ev /=; first by case=> _ <- <-.
rewrite /phase0_run; case: publish_shares => // b1.
case E: run_phase0s => [[[b2 q1s] ev1]|] //; case=> _ <- <-.
by have [-> ->] := IH _ _ _ _ E.
Qed.

Lemma run_phase1s_some b snap (ps : seq (Phase1 F)) b' p2s ev :
  run_phase1s g X b snap ps = Some (b', p2s, ev) ->
  [/\ p2s = map (to_phase2 snap) ps, ev = [seq Phase2Done (p1_index p) | p <- ps] &
      all (fun p => all (fun i => i \in map (@bs_dealer F) snap) (group_indices (p1_group p))) ps].
Proof.
elim: ps b b' p2s ev => [|p ps IH] b b' p2s ev /=; first by case=> _ <- <-.
case Ep: phase1_run => [[b1 q]|] //.
case E: run_phase1s => [[[b2 q2s] ev1]|] //; case=> _ <- <-.
have [-> -> ->] := IH _ _ _ _ E.
rewrite (phase1_run_complete Ep); split=> //.
move: Ep; rewrite /phase1_run /read_shares; case: ifP => // _.
by case: publish_responses => // b3 [_ <-].
Qed.

Lemma run_phase2s_some b snap (ps : seq (Phase2 F)) rs ev :
  run_phase2s g X b snap ps = Some (rs, ev) ->
  [/\ size rs = size ps, ev = [seq OutputDone (p2_index p) | p <- ps] &
      all (fun p => all (fun i => i \in map br_share_idx snap) (group_indices (p2_group p))) ps].
Proof.
elim: ps rs ev => [|p ps IH] rs ev /=; first by case=> <- <-.
case Ep: phase2_run => [r|] //.
case E: run_phase2s => [[rs1 ev1]|] //; case=> <- <-.
have [/= -> -> ->] := IH _ _ E.
by rewrite (phase2_run_complete Ep).
Qed.

(** What a completed run went through: the three rounds in order, each
    phase run on a snapshot holding the entries of all group members. *)
Lemma dkg_phases_some board (ps : seq (Phase0 F)) r :
  dkg_phases g X board ps = Some r ->
  [/\ run_events r = [seq Phase1Done (p0_index p) | p <- ps] ++
                     [seq Phase2Done (p0_index p) | p <- ps] ++
                     [seq OutputDone (p0_index p) | p <- ps],
      all (fun p => all (fun i => (i \in map (@bs_dealer F) (run_shares r)) &&
                                  (i \in map br_share_idx (run_responses r)))
                        (group_indices (p0_group p))) ps &
      size (run_results r) = size ps].
Proof.
rewrite /dkg_phases.
case E0: run_phase0s => [[[b1 p1s] ev1]|] //.
case E1: run_phase1s => [[[b2 p2s] ev2]|] //.
case E2: run_phase2s => [[rs ev3]|] //; case=> <-.
have [Hp1 Hev1] := run_phase0s_some E0.
have [Hp2 Hev2 Hc1] := run_phase1s_some E1.
have [Hs Hev3 Hc2] := run_phase2s_some E2.
move: Hev2 Hc1 Hev3 Hc2 Hs; rewrite Hp2 Hp1 /= -!map_comp !all_map !size_map => -> Hc1 -> Hc2 ->.
split=> //; first by rewrite Hev1.
apply: (all_both _ Hc1 Hc2) => p H1 H2.
by apply/allP => i Hi; rewrite (allP H1 i Hi) (allP H2 i Hi).
Qed.

End DKGLoops.

(** ** The honest run *)
Section HonestRun.
Local Open Scope ring_scope.

Variable F : fieldType.
Variable g : F.
Variable X : nat -> F.
Variables (n t : nat) (draw : nat -> nat -> F).

(** The threshold is admissible and the public keys are distinct. *)
Hypothesis Ht : (0 < t <= n)%N.
Hypothesis Hpub : uniq [seq draw i 0%N * g | i <- iota 0 n].

Local Abbreviation poly := (honest_poly t draw).
Local Abbreviation ph0 := (honest_phase0 g n t draw).
Local Abbreviation grp := (honest_group g n t draw).
Local Abbreviation shares_of := (shares_of g X).

Lemma honest_group_indices : group_indices grp = iota 0 n.
Proof. by rewrite /group_indices /=; elim: (iota 0 n) => //= i s ->. Qed.

Lemma size_honest_poly i : size (poly i) = t.
Proof.
case/andP: Ht => Ht0 _.
by rewrite /honest_poly /= size_map size_iota prednK.
Qed.

Lemma setup_honest : setup g n t draw = Some (board_new F, map ph0 (iota 0 n)).
Proof.
rewrite /setup /group_new size_map size_iota Ht.
rewrite (collect_ok_map (h := ph0)) // => i Hi.
rewrite /dkg_new /=.
have [Hlt Hnth] := find_in_map (f := fun j => mkNode j (draw j 0%N * g))
                     (key := @node_public F) (default_node F) Hpub Hi erefl.
rewrite size_map Hlt Hnth /= take_oversize //.
by rewrite size_map size_iota.
Qed.

Lemma share_for_honest (p : Phase0 F) me :
  p0_group p = grp -> me \in iota 0 n -> me != p0_index p ->
  share_for me (shares_of p) = Some (poly_eval_at (p0_poly p) (X me)).
Proof.
move=> Hg Hi Hme; rewrite /share_for /shares_of Hg /=.
rewrite filter_map -map_comp.
set s := filter _ (iota 0 n).
have Hs : me \in s by rewrite mem_filter /= Hme Hi.
have Hu : uniq [seq (((fun nd : Node F => (node_index nd,
              poly_eval_at (p0_poly p) (X (node_index nd)))) \o
              (fun i => mkNode i (hpub g draw i))) z).1 | z <- s].
  by rewrite map_id_in ?filter_uniq ?iota_uniq.
have [Hlt Hnth] := find_in_map (key := fst) (y := me) (0%N, 0) Hu Hs erefl.
by rewrite size_map Hlt Hnth.
Qed.

Lemma verify_share_honest d me :
  me \in iota 0 n -> me != d -> verify_share g X me (shares_of (ph0 d)).
Proof.
move=> Hi Hme; rewrite /verify_share share_for_honest //.
exact/eqP/esym/poly_eval_at_commit.
Qed.

Local Abbreviation ps0 := (map ph0 (iota 0 n)).
Local Abbreviation snap1 := (map shares_of ps0).
Local Abbreviation snap2 :=
  [seq responses_of g X (p1_index p) (others_of snap1 (p1_index p)) | p <- map (@to_phase1 F) ps0].

Lemma others_of_honest i :
  others_of snap1 i = map (shares_of \o ph0) [seq d <- iota 0 n | d != i].
Proof. by rewrite /others_of -map_comp filter_map. Qed.

Lemma find_bundle_honest me j :
  j \in iota 0 n -> j != me ->
  find_bundle (others_of snap1 me) j = Some (shares_of (ph0 j)).
Proof.
move=> Hj Hjm; rewrite others_of_honest /find_bundle.
set s := filter _ (iota 0 n).
have Hs : j \in s by rewrite mem_filter Hjm Hj.
have Hu : uniq [seq bs_dealer ((shares_of \o ph0) z) | z <- s].
  by rewrite map_id_in ?filter_uniq ?iota_uniq.
have [Hlt Hnth] := find_in_map (key := @bs_dealer F) (y := j)
                     (mkBundledShares 0 [::] [::]) Hu Hs erefl.
by rewrite size_map Hlt Hnth.
Qed.

Lemma no_complaints j : complained snap2 j = false.
Proof.
apply/negbTE; rewrite /complained !has_map; apply/hasPn => i Hi /=.
rewrite has_map others_of_honest has_map; apply/hasPn => d.
rewrite mem_filter => /andP [Hdi Hd] /=.
by rewrite verify_share_honest ?andbF // eq_sym.
Qed.

Lemma In_map_seq (A : Type) (f : nat -> A) (s : seq nat) x :
  List.In x (map f s) -> exists2 i, i \in s & x = f i.
Proof.
elim: s => [|i s IH] //= [<- | Hx]; first by exists i; rewrite ?mem_head.
by have [j Hj ->] := IH Hx; exists j; rewrite // inE Hj orbT.
Qed.

Lemma phase2_honest b me :
  me \in iota 0 n ->
  phase2_run g X b snap2 (to_phase2 snap1 (to_phase1 (ph0 me))) =
  Ok (Output (honest_output g X n t draw me)).
Proof.
move=> Hme; rewrite /phase2_run /read_responses /= honest_group_indices.
have -> : map br_share_idx snap2 = iota 0 n.
  by rewrite -!map_comp map_id_in.
rewrite (introT allP (fun i Hi => Hi)).
have -> : [seq i <- iota 0 n | ~~ complained snap2 i] = iota 0 n.
  by rewrite (eq_filter (a2 := predT)) ?filter_predT // => i; rewrite no_complaints.
case/andP: Ht => _ Htn; rewrite size_iota ltnNge Htn /=.
rewrite /honest_output; congr (Ok (Output (mkDKGOutput (poly_sum _) (mkShare _ (sum_list _))))).
- apply/eq_in_map => j Hj; rewrite /dealer_public /=.
  case: eqP => [-> // | /eqP Hjm].
  by rewrite find_bundle_honest.
- apply/eq_in_map => j Hj; rewrite /dealer_share /=.
  case: eqP => [-> // | /eqP Hjm].
  by rewrite find_bundle_honest //= share_for_honest // eq_sym.
Qed.

Lemma dkg_phases_honest :
  exists ev, dkg_phases g X (board_new F) ps0 =
    Some (mkDKGRun snap1 snap2 [seq Output (honest_output g X n t draw i) | i <- iota 0 n] ev).
Proof.
rewrite /dkg_phases run_phase0s_ok /=; first by rewrite -map_comp map_id_in ?iota_uniq.
have Hu1 : uniq (map br_share_idx [::] ++ map (@p1_index F) (map (@to_phase1 F) ps0)).
  by rewrite /= -!map_comp map_id_in ?iota_uniq.
have Hc1 : all (fun p => all (fun i => i \in map (@bs_dealer F) snap1)
                             (group_indices (p1_group p))) (map (@to_phase1 F) ps0).
  rewrite !all_map; apply/allP => i Hi /=; rewrite honest_group_indices.
  by apply/allP => j Hj; rewrite -!map_comp map_id_in.
rewrite (@run_phase1s_ok F g X (mkBoard snap1 [::]) snap1 _ Hu1 Hc1) /=.
rewrite (run_phase2s_ok (h := fun p => Output (honest_output g X n t draw (p2_index p)))).
  move=> p Hp.
  have Hp' : List.In p (map ((to_phase2 snap1 \o @to_phase1 F) \o ph0) (iota 0 n)).
    by rewrite !map_comp.
  have [i Hi ->] := In_map_seq Hp'.
  exact: phase2_honest.
by eexists; rewrite -!map_comp.
Qed.

Lemma size_group_poly : (size (group_poly n t draw) <= t)%N.
Proof.
apply: size_poly_sum; rewrite all_map; apply/allP => i _.
exact: (eq_leq (size_honest_poly i)).
Qed.

Lemma honest_output_public i :
  out_public (honest_output g X n t draw i) = commit g (group_poly n t draw).
Proof. by rewrite /= /group_poly commit_sum -map_comp. Qed.

Lemma honest_output_share i :
  share_private (out_share (honest_output g X n t draw i)) =
  poly_eval_at (group_poly n t draw) (X i).
Proof. by rewrite /= /group_poly poly_eval_at_sum -map_comp. Qed.

Lemma run_dkg_honest :
  run_dkg g X (board_new F) ps0 = Some [seq honest_output g X n t draw i | i <- iota 0 n].
Proof.
rewrite /run_dkg; have [ev ->] := dkg_phases_honest; rewrite /= -map_comp.
rewrite (collect_ok_map (h := honest_output g X n t draw)) //.
case/andP: Ht => Ht0 Htn; have := leq_trans Ht0 Htn.
rewrite -map_comp (eq_map (g := fun _ => commit g (group_poly n t draw))).
  by move=> i; exact: honest_output_public.
by rewrite is_all_same_const; case: n => [|n'] //=; rewrite eqxx.
Qed.

Lemma honest_output_eq i :
  honest_output g X n t draw i =
  mkDKGOutput (commit g (group_poly n t draw))
    (mkShare i (poly_eval_at (group_poly n t draw) (X i))).
Proof. by rewrite -(honest_output_public i) -(honest_output_share i). Qed.

End HonestRun.

(** ** The controller *)
Section ControllerProofs.
Local Open Scope ring_scope.

Variable F : fieldType.
Variable g : F.
Variable hash_to_curve : string -> F.
Variable RandomnessOutput : Type.
Variable derive_output : F -> RandomnessOutput.

Local Abbreviation Controller := (Controller F RandomnessOutput).
Local Abbreviation ctl_step := (ctl_step g hash_to_curve derive_output).
Local Abbreviation ctl_steps := (ctl_steps g hash_to_curve derive_output).

Lemma node_register_dup (c : Controller) id pk u addr :
  id \in map (@id_address F) (c_nodes c) -> node_register c id pk u addr = (false, c).
Proof. by move=> Hid; rewrite /node_register Hid; case: ifP. Qed.

Lemma node_register_fresh (c : Controller) id pk u addr :
  group_state_eqb (cg_state (c_group c)) Forming ->
  id \notin map (@id_address F) (c_nodes c) ->
  exists c', node_register c id pk u addr = (true, c') /\
    c_nodes c' = rcons (c_nodes c) (mkCNode id pk u addr (size (c_nodes c))).
Proof.
move=> Hf Hid; rewrite /node_register Hf (negbTE Hid) /=.
by case: ifP => _; eexists.
Qed.

(** Every call keeps the registered nodes, with their indices, as a prefix. *)
Lemma ctl_step_nodes (c c' : Controller) :
  ctl_step c c' -> exists s, c_nodes c' = c_nodes c ++ s.
Proof.
case=> [id pk u addr | task c1 | id gi ep pk ppk d | seed | task c1 | id index sig ps].
- rewrite /node_register; case: ifP => _; first by exists [::]; rewrite cats0.
  case: ifP => _; first by exists [::]; rewrite cats0.
  by case: ifP => _; eexists; rewrite /= -cats1.
- rewrite /emit_dkg_task; case: c_dkg_task => // t0; case: ifP => // _ [_ <-].
  by exists [::]; rewrite cats0.
- exists [::]; rewrite cats0 /commit_dkg.
  by do 5! (case: ifP => _ //).
- exists [::]; rewrite cats0 /request; by case: ifP.
- rewrite /emit_signature_task; case: c_pending => // t0 rest [_ <-].
  by exists [::]; rewrite cats0.
- exists [::]; rewrite cats0 /fulfill.
  case: find_task => [[task [|]]|] //; case: cg_public_key => // pk.
  by case: ifP.
Qed.

Lemma ctl_steps_nodes (c c' : Controller) :
  ctl_steps c c' -> exists s, c_nodes c' = c_nodes c ++ s.
Proof.
elim=> [c0 | c0 c1 c2 H1 _ [s2 ->]]; first by exists [::]; rewrite cats0.
by have [s1 ->] := ctl_step_nodes H1; exists (s1 ++ s2); rewrite catA.
Qed.

Lemma ctl_step_indices (c c' : Controller) :
  ctl_step c c' -> indices_ok c -> indices_ok c'.
Proof.
case=> [id pk u addr | task c1 | id gi ep pk ppk d | seed | task c1 | id index sig ps].
- rewrite /node_register; case: ifP => // _; case: ifP => // _.
  rewrite /indices_ok => /eqP Hi.
  by case: ifP => _; rewrite /= map_rcons Hi size_rcons -addn1 iotaD cats1.
- rewrite /emit_dkg_task; case: c_dkg_task => // t0; case: ifP => // _ [_ <-].
  by [].
- rewrite /commit_dkg.
  by do 5! (case: ifP => _ //).
- rewrite /request; by case: ifP.
- by rewrite /emit_signature_task; case: c_pending => // t0 rest [_ <-].
- rewrite /fulfill.
  case: find_task => [[task [|]]|] //; case: cg_public_key => // pk.
  by case: ifP.
Qed.

Lemma ctl_steps_indices (c c' : Controller) :
  ctl_steps c c' -> indices_ok c -> indices_ok c'.
Proof. by elim=> // c0 c1 c2 H1 _ IH H0; apply/IH/(ctl_step_indices H1). Qed.

Lemma fulfill_rejects (c : Controller) id index sig ps task pk :
  (find_task (c_tasks c) index = Some (task, Fulfilled) ->
   fulfill g hash_to_curve derive_output c id index sig ps = (false, c)) /\
  (find_task (c_tasks c) index = Some (task, Pending) ->
   cg_public_key (c_group c) = Some pk ->
   ~~ verify g hash_to_curve pk (st_message task) sig ->
   fulfill g hash_to_curve derive_output c id index sig ps = (false, c)).
Proof.
split; first by rewrite /fulfill => ->.
by rewrite /fulfill => -> -> /negbTE ->.
Qed.

Lemma fulfill_true (c c' : Controller) id index sig ps :
  fulfill g hash_to_curve derive_output c id index sig ps = (true, c') ->
  [/\ exists task, find_task (c_tasks c) index = Some (task, Pending),
      c_tasks c' = mark_fulfilled (c_tasks c) index &
      c_last_output c' = Some (derive_output sig)].
Proof.
rewrite /fulfill; case E: find_task => [[task [|]]|] //.
case: cg_public_key => // pk; case: ifP => // _ [<-] /=.
by split=> //; exists task.
Qed.

Lemma find_task_mark tasks index task st :
  find_task tasks index = Some (task, st) ->
  find_task (mark_fulfilled tasks index) index = Some (task, Fulfilled).
Proof.
rewrite /find_task /mark_fulfilled find_map size_map.
set a := fun ts : SignatureTask * TaskState => st_index ts.1 == index.
have -> : find (preim (fun ts : SignatureTask * TaskState =>
                        if st_index ts.1 == index then (ts.1, Fulfilled) else ts)
                      (fun ts => st_index ts.1 == index)) tasks = find a tasks.
  by apply: eq_find => ts /=; case: ifP => //= ->.
case: ifP => // Hlt [E].
rewrite (nth_map (mkSignatureTask 0 EmptyString 0, Pending)) // E /=.
have := nth_find (mkSignatureTask 0 EmptyString 0, Pending) (etrans (has_find a tasks) Hlt).
by rewrite E /a /= => ->.
Qed.

(** A fulfilled task cannot be fulfilled again. *)
Lemma fulfill_twice (c c' : Controller) id index sig ps id' sig' ps' :
  fulfill g hash_to_curve derive_output c id index sig ps = (true, c') ->
  fulfill g hash_to_curve derive_output c' id' index sig' ps' = (false, c').
Proof.
move=> /fulfill_true [[task Ht] Htasks _].
by rewrite /fulfill Htasks (find_task_mark Ht).
Qed.

(** Only a successful [fulfill] changes the last output. *)
Lemma ctl_step_last_output (c c' : Controller) :
  ctl_step c c' ->
  (forall id index sig ps, fulfill g hash_to_curve derive_output c id index sig ps <> (true, c')) ->
  c_last_output c' = c_last_output c.
Proof.
case=> [id pk u addr | task c1 E | id gi ep pk ppk d | seed | task c1 E | id index sig ps] Hn.
- rewrite /node_register; case: ifP => // _; case: ifP => // _.
  by case: ifP.
- by move: E; rewrite /emit_dkg_task; case: (c_dkg_task c) => // t0; case: ifP => // _ [_ <-].
- rewrite /commit_dkg.
  by do 5! (case: ifP => _ //).
- rewrite /request; by case: ifP.
- by move: E; rewrite /emit_signature_task; case: (c_pending c) => // t0 rest [_ <-].
- move: (Hn id index sig ps); case E: fulfill => [[] c1] /= H; first by case: H.
  suff -> : c1 = c by [].
  move: E; rewrite /fulfill; case: find_task => [[task [|]]|]; [ | by case | by case].
  by case: cg_public_key => [pk|]; [case: ifP => _; case | case].
Qed.

Lemma set_group2 (c : Controller) gr gr' : set_group (set_group c gr) gr' = set_group c gr'.
Proof. by []. Qed.

Lemma ce_id_entries (A : Type) (f : A -> string) (v : A -> F) (pk : F) (s : seq A) :
  map (@ce_id F) [seq mkCommitEntry (f a) pk (v a) [::] | a <- s] = map f s.
Proof. by elim: s => //= a s ->. Qed.

(** The commitment loop: after the members [map f done] have committed, the
    members [map f rest] commit the same public key, one after the other,
    member [f a] with the partial public key [v a]. *)
Lemma commit_loop (A : Type) (f : A -> string) (v : A -> F) (c : Controller)
    idx ep sz th pk0 mem (done rest : seq A) (pk : F) :
  (0 < size rest)%N -> uniq (map f (done ++ rest)) -> all (fun a => f a \in mem) rest ->
  size (done ++ rest) = sz ->
  run_calls (@commit_step F RandomnessOutput)
    (set_group c (mkCGroup idx ep sz th Committing pk0 mem (map f done)
                    [seq mkCommitEntry (f a) pk (v a) [::] | a <- done]))
    [seq (f a, idx, ep, pk, v a) | a <- rest] =
  (nseq (size rest) true,
   set_group c (mkCGroup idx ep sz th Available (Some pk) mem (map f (done ++ rest))
                  [seq mkCommitEntry (f a) pk (v a) [::] | a <- done ++ rest])).
Proof.
elim: rest done pk0 => [|x rest IH] done pk0 // _ Hu /andP [Hid Hall] Hsz.
rewrite /= /commit_dkg /= !eqxx /= Hid /= ce_id_entries.
have Hd : f x \notin map f done.
  by move: Hu; rewrite map_cat cat_uniq /= => /and3P [_ /norP [] ].
rewrite (negbTE Hd) has_map /=.
have -> : has (fun x => pk != pk) done = false by rewrite eqxx has_pred0.
rewrite -(map_rcons (fun a => mkCommitEntry (f a) pk (v a) [::])) ce_id_entries.
rewrite size_map size_rcons set_group2.
case: rest IH Hu Hall Hsz => [|x' rest'] IH Hu Hall Hsz.
  by rewrite -Hsz size_cat addn1 eqxx cats1 map_rcons.
have -> : ((size done).+1 == sz) = false.
  by rewrite -Hsz size_cat /= addnS eqSS -{1}(addn0 (size done)) eqn_add2l.
by rewrite (IH (rcons done x) None) ?cat_rcons.
Qed.

Lemma commit_dkg_closed (c : Controller) id gi ep pk ppk d :
  cg_state (c_group c) = Available -> commit_dkg c id gi ep pk ppk d = (false, c).
Proof. by rewrite /commit_dkg => ->. Qed.

Lemma ctl_steps_unfulfilled_last_output (c c' : Controller) :
  ctl_steps_unfulfilled g hash_to_curve derive_output c c' -> c_last_output c' = c_last_output c.
Proof. by elim=> // c0 c1 c2 Hs Hn _ ->; exact: ctl_step_last_output. Qed.

End ControllerProofs.

(** ** Threshold signing with the honest DKG shares *)

Section HonestSigning.
Local Open Scope ring_scope.

Variable F : fieldType.
Variable g : F.
Variable X : nat -> F.
Variable H : string -> F.
Variables (n t : nat) (draw : nat -> nat -> F).

Hypothesis Ht : (0 < t <= n)%N.
Hypothesis HX : uniq [seq X i | i <- iota 0 n].

Local Abbreviation gp := (group_poly n t draw).
Local Abbreviation out := (honest_output g X n t draw).

Lemma honest_partial_verify msg i :
  partial_verify g X H (commit g gp) msg (partial_sign H (out_share (out i)) msg).
Proof.
by rewrite honest_output_eq /partial_verify /verify /= poly_eval_at_commit mulrA
  [H msg * _]mulrC eqxx.
Qed.

Lemma verify_group_sig msg :
  verify g H (public_key (commit g gp)) msg (public_key gp * H msg).
Proof. by rewrite /verify public_key_commit mulrA [H msg * _]mulrC eqxx. Qed.

Lemma honest_partials_index msg (idx : seq nat) :
  map (@eval_index F) [seq partial_sign H (out_share (out i)) msg | i <- idx] = idx.
Proof. by rewrite -map_comp -[RHS]map_id; apply: eq_map. Qed.

Lemma aggregate_honest msg (m : seq bool) :
  (t <= size (mask m (iota 0 n)))%N ->
  aggregate X t [seq partial_sign H (out_share (out i)) msg | i <- mask m (iota 0 n)] =
  Ok (public_key gp * H msg).
Proof.
move=> Hm; have Hu : uniq (mask m (iota 0 n)) by apply: mask_uniq; exact: iota_uniq.
apply: aggregate_ok; rewrite ?honest_partials_index ?(undup_id Hu) //.
- move=> x y /mem_mask Hx /mem_mask Hy; exact: (uniq_map_inj_in HX).
- rewrite all_map; apply/allP => i _; apply/eqP.
  exact: (congr1 (fun x => x * H msg) (honest_output_share g X n t draw i)).
- exact: (@size_group_poly F n t draw Ht).
Qed.

Lemma aggregate_honest_short msg (m : seq bool) :
  (size (mask m (iota 0 n)) < t)%N ->
  aggregate X t [seq partial_sign H (out_share (out i)) msg | i <- mask m (iota 0 n)] =
  Err (NotEnoughPartialSignatures (size (mask m (iota 0 n))) t).
Proof.
move=> Hm; have Hu : uniq (mask m (iota 0 n)) by apply: mask_uniq; exact: iota_uniq.
by rewrite aggregate_short honest_partials_index ?(undup_id Hu).
Qed.

End HonestSigning.

(** ** The demo run of [main] *)

Section MainRun.
Local Open Scope ring_scope.

Variable F : fieldType.
Variable g : F.
Variable X : nat -> F.
Variable H : string -> F.
Variable R : Type.
Variable der : F -> R.
Variable draw : nat -> nat -> F.

(** The five dealers' public keys are distinct and so are the five
    evaluation points. *)
Hypothesis Hpub : uniq [seq draw i 0%N * g | i <- iota 0 5].
Hypothesis HX : uniq [seq X i | i <- iota 0 5].

Local Abbreviation gp := (group_poly 5 3 draw).
Local Abbreviation P := (commit g (group_poly 5 3 draw)).

(** Everything [main] prints, in terms of the group polynomial. *)
Lemma main_honest :
  match main g X H der draw with
  | None => False
  | Some tr =>
    mt_register tr = nseq 5 true /\
    mt_outputs tr = [seq honest_output g X 5 3 draw i | i <- iota 0 5] /\
    mt_commit_calls tr =
      [seq (node_id i, 1%nat, 1%nat, public_key P, poly_eval_at P (X i)) | i <- iota 0 5] /\
    mt_commit_res tr = nseq 5 true /\
    mt_group tr =
      mkCGroup 1 1 DEFAULT_GROUP_SIZE DEFAULT_THRESHOLD Available (Some (public_key P))
        (map node_id (iota 0 5)) (map node_id (iota 0 5))
        [seq mkCommitEntry (node_id i) (public_key P) (poly_eval_at P (X i)) [::]
        | i <- iota 0 5] /\
    mt_sig tr = public_key gp * H demo_msg /\
    mt_fulfill_res tr = true :: nseq 4 false /\
    c_tasks (mt_controller tr) = [:: (mkSignatureTask 0 demo_msg 1, Fulfilled)] /\
    mt_output tr = der (mt_sig tr) /\
    c_last_output (mt_controller tr) = Some (mt_output tr)
  end.
Proof.
have Hsz := @size_group_poly F 5 3 draw.
rewrite /main (@setup_honest F g 5 3 draw erefl Hpub) [run_calls _ _ _]/=.
cbv iota.
cbn [emit_dkg_task group_state_eqb c_dkg_task c_group cg_state].
rewrite (@run_dkg_honest F g X 5 3 draw erefl).
rewrite (eq_map (@honest_output_eq F g X 5 3 draw)).
move: Hsz; set q := group_poly 5 3 draw; clearbody q => Hsz.
rewrite [map _ (iota 0 5)]/=.
cbv iota.
cbn [task_group_index task_epoch set_group_state cg_index cg_epoch cg_size cg_threshold
     cg_public_key cg_members cg_committers cg_commits out_public].
rewrite (@commit_loop F R nat node_id (fun i => eval_value (poly_eval X (commit g q) i))
           _ _ _ _ _ _ _ [::] (iota 0 5)) //.
rewrite (@aggregate_ok F X 3 q (H demo_msg)).
1: by move=> /=; exact: (uniq_map_inj_in HX).
1: by rewrite /= !eqxx.
1: by apply: Hsz.
1: by [].
rewrite /get_group /=.
have Hpv i : partial_verify g X H (commit g q) demo_msg
    (partial_sign H (mkShare i (poly_eval_at q (X i))) demo_msg) = true.
  by rewrite /partial_verify /verify /= poly_eval_at_commit mulrA [H demo_msg * _]mulrC eqxx.
have Hver : verify g H (public_key (commit g q)) demo_msg (public_key q * H demo_msg) = true.
  by rewrite /verify public_key_commit mulrA [H demo_msg * _]mulrC eqxx.
rewrite !Hpv Hver /= /fulfill_step /fulfill /= ?Hver /=.
by do !split.
Qed.

End MainRun.

(** ** Decimal numerals and the driver's node ids *)
Section DriverProofs.

Lemma string_append_assoc (s1 s2 s3 : string) :
  String.append (String.append s1 s2) s3 = String.append s1 (String.append s2 s3).
Proof. by elim: s1 => //= c s1 ->. Qed.

Lemma nat_to_string_aux_app fuel n acc :
  nat_to_string_aux fuel n acc = String.append (nat_to_string_aux fuel n EmptyString) acc.
Proof.
elim: fuel n acc => [|fuel IH] n acc //=.
case: ifP => // _.
by rewrite IH [in RHS]IH string_append_assoc.
Qed.

Lemma decimal_value_app s1 s2 v :
  decimal_value (String.append s1 s2) v = decimal_value s2 (decimal_value s1 v).
Proof. by elim: s1 v => //= c s1 IH v. Qed.

Lemma all_digits_app s1 s2 :
  all_digits (String.append s1 s2) = all_digits s1 && all_digits s2.
Proof. by elim: s1 => //= c s1 ->; rewrite andbA. Qed.

Lemma nat_of_ascii_digit n : nat_of_ascii (ascii_of_nat (48 + n %% 10)) = 48 + n %% 10.
Proof.
apply: Ascii.nat_ascii_embedding; apply/ltP.
by rewrite (@leq_trans 58) // ltn_add2l ltn_mod.
Qed.

Lemma is_digit_digit n : is_digit (ascii_of_nat (48 + n %% 10)).
Proof.
rewrite /is_digit nat_of_ascii_digit leq_addr /=.
have H : n %% 10 < 10 by rewrite ltn_mod.
by rewrite -(leq_add2l 48) in H.
Qed.

Lemma decimal_value_cons c s v :
  decimal_value (String c s) v = decimal_value s (v * 10 + (nat_of_ascii c - 48)).
Proof. by []. Qed.

Lemma all_digits_cons c s : all_digits (String c s) = is_digit c && all_digits s.
Proof. by []. Qed.

Lemma nat_to_string_aux_value fuel n :
  n < fuel ->
  decimal_value (nat_to_string_aux fuel n EmptyString) 0 = n /\
  all_digits (nat_to_string_aux fuel n EmptyString).
Proof.
elim: fuel n => [|fuel IH] n // Hn.
rewrite [nat_to_string_aux _ _ _]/=.
case: ifP => Hn10.
  rewrite decimal_value_cons all_digits_cons nat_of_ascii_digit addKn is_digit_digit.
  by rewrite modn_small.
rewrite nat_to_string_aux_app decimal_value_app all_digits_app.
have Hlt : n %/ 10 < fuel.
  rewrite -ltnS (leq_trans _ Hn) // ltnS ltn_divLR // -[X in X < _]muln1 ltn_mul2l.
  by move/negbT: Hn10; rewrite -leqNgt => H10; rewrite (leq_trans _ H10).
have [-> ->] := IH (n %/ 10) Hlt.
rewrite decimal_value_cons all_digits_cons nat_of_ascii_digit addKn is_digit_digit.
by rewrite -divn_eq.
Qed.

Lemma nat_to_string_inj : injective nat_to_string.
Proof.
move=> i j E.
have [Hi _] := nat_to_string_aux_value (ltnSn i).
have [Hj _] := nat_to_string_aux_value (ltnSn j).
by rewrite /nat_to_string in E; rewrite -[LHS]Hi E Hj.
Qed.

Lemma node_id_inj : injective node_id.
Proof. by move=> i j; rewrite /node_id; case=> /nat_to_string_inj. Qed.

End DriverProofs.

(** ** What a completed [run_dkg] and a [setup] return *)
Section RunDKGProofs.
Local Open Scope ring_scope.

Lemma collect_ok_outputs (F : fieldType) (rs : seq (Phase2Result F)) outs :
  collect_ok [seq match output_of res with
                  | Some o => Ok o
                  | None => Err tt
                  end | res <- rs] = Some outs -> rs = map (@Output F) outs.
Proof.
elim: rs outs => [|r rs IH] outs /=; first by case=> <-.
case: r => //= o; case E: collect_ok => [l|] //; case=> <-.
by rewrite (IH _ E).
Qed.

Lemma run_phase2s_index (F : fieldType) g X b snap (ps : seq (Phase2 F)) rs ev :
  run_phase2s g X b snap ps = Some (rs, ev) ->
  map (@result_index F) rs = map (@p2_index F) ps.
Proof.
elim: ps rs ev => [|p ps IH] rs ev /=; first by case=> <-.
case Ep: phase2_run => [r|] //.
case E: run_phase2s => [[rs1 ev1]|] //; case=> <- _ /=.
rewrite (IH _ _ E); congr (_ :: _).
move: Ep; rewrite /phase2_run; case: read_responses => // resps.
by case: ifP => _ [<-].
Qed.

Lemma dkg_phases_index (F : fieldType) g X b (ps : seq (Phase0 F)) r :
  dkg_phases g X b ps = Some r ->
  map (@result_index F) (run_results r) = map (@p0_index F) ps.
Proof.
rewrite /dkg_phases.
case E0: run_phase0s => [[[b1 p1s] ev1]|] //.
case E1: run_phase1s => [[[b2 p2s] ev2]|] //.
case E2: run_phase2s => [[rs ev3]|] //; case=> <- /=.
have [Hp1 _] := run_phase0s_some E0.
have [Hp2 _ _] := run_phase1s_some E1.
by rewrite (run_phase2s_index E2) Hp2 Hp1 -!map_comp.
Qed.

Lemma all_In (A : Type) (p : pred A) (s : seq A) x : all p s -> List.In x s -> p x.
Proof. by elim: s => //= a s IH /andP [Ha Hs] [<- // | /IH]; apply. Qed.

Lemma collect_ok_some (A : eqType) (B E : Type) (f : A -> result B E) (s : seq A) :
  (forall x, x \in s -> exists y, f x = Ok y) -> exists l, collect_ok (map f s) = Some l.
Proof.
elim: s => [|a s IH] H /=; first by exists [::].
have [y ->] := H a (mem_head a s).
have [l ->] : exists l, collect_ok (map f s) = Some l.
  by apply: IH => x Hx; apply: H; rewrite inE Hx orbT.
by exists (y :: l).
Qed.

End RunDKGProofs.

(** ** The claims *)

Local Open Scope ring_scope.

(** C1: for [1 <= t <= n] (and distinct dealer public keys), the all-honest
    DKG prepared by [setup] runs to completion in [run_dkg]: there is one
    output per participant, every output carries the same public polynomial
    (the commitment of the group polynomial, hence the same public key), and
    the [is_all_same] assertion on the [public] fields holds. *)
Theorem C1_honest_dkg_same_public (F : fieldType) (g : F) (X : nat -> F) (n t : nat)
    (draw : nat -> nat -> F) :
  (0 < t <= n)%N -> uniq [seq draw i 0%N * g | i <- iota 0 n] ->
  match setup g n t draw with
  | None => False
  | Some (board, ps) =>
      match run_dkg g X board ps with
      | None => False
      | Some outs =>
          size outs = n /\
          (forall o, List.In o outs -> out_public o = commit g (group_poly n t draw)) /\
          is_all_same [seq out_public o | o <- outs] = Some true
      end
  end.
Proof.
move=> Ht Hpub.
have Hn : (0 < n)%N by case/andP: Ht => /leq_trans; apply.
rewrite (@setup_honest F g n t draw Ht Hpub) (@run_dkg_honest F g X n t draw Ht).
split; first by rewrite size_map size_iota.
split; first by move=> o Ho; have [i _ ->] := In_map_seq Ho; exact: honest_output_public.
rewrite -map_comp (eq_map (g := fun _ => commit g (group_poly n t draw))).
  by move=> i; exact: honest_output_public.
by rewrite is_all_same_const; case: n Ht Hpub Hn.
Qed.

(** C9: on the empty sequence [is_all_same] panics (the [unwrap] of the
    first element; [None] here); on a non-empty sequence it returns
    [Some b] where [b] holds iff all the elements are equal to each other. *)
Theorem C9_is_all_same_spec (T : eqType) :
  is_all_same ([::] : seq T) = None /\
  forall (x : T) (s : seq T), exists b : bool,
    is_all_same (x :: s) = Some b /\ (b <-> {in x :: s &, forall y z, y = z}).
Proof.
split=> // x s; exists (all (fun item => item == x) s); split=> //; split.
  move=> /allP H y z; rewrite !inE.
  by case/predU1P => [->|/H/eqP->]; case/predU1P => [->|/H/eqP->].
move=> H; apply/allP => y Hy; apply/eqP; apply: H; rewrite inE ?eqxx ?Hy ?orbT //.
Qed.

(** C2: take the outputs of the all-honest DKG and any selection of them
    ([mask m], so distinct participants).  Every partial signature on [msg]
    passes [partial_verify] against the shared public polynomial.  With [t]
    or more of them, [aggregate] returns a signature that passes [verify]
    under the group public key.  With fewer than [t], [aggregate] fails
    with [NotEnoughPartialSignatures]. *)
Theorem C2_threshold_aggregation (F : fieldType) (g : F) (X : nat -> F) (H : string -> F)
    (n t : nat) (draw : nat -> nat -> F) (msg : string) (m : seq bool) :
  (0 < t <= n)%N -> uniq [seq draw i 0%N * g | i <- iota 0 n] ->
  uniq [seq X i | i <- iota 0 n] ->
  match setup g n t draw with
  | None => False
  | Some (board, ps) =>
      match run_dkg g X board ps with
      | None => False
      | Some outs =>
          let partials := [seq partial_sign H (out_share o) msg | o <- mask m outs] in
          (forall o, List.In o outs -> all (partial_verify g X H (out_public o) msg) partials) /\
          ((t <= size partials)%N -> exists sig, aggregate X t partials = Ok sig /\
             forall o, List.In o outs -> verify g H (public_key (out_public o)) msg sig) /\
          ((size partials < t)%N ->
             aggregate X t partials = Err (NotEnoughPartialSignatures (size partials) t))
      end
  end.
Proof.
move=> Ht Hpub HX.
rewrite (@setup_honest F g n t draw Ht Hpub) (@run_dkg_honest F g X n t draw Ht) -map_mask.
have -> : [seq partial_sign H (out_share o) msg
          | o <- map (honest_output g X n t draw) (mask m (iota 0 n))] =
          [seq partial_sign H (out_share (honest_output g X n t draw i)) msg
          | i <- mask m (iota 0 n)] by rewrite -map_comp.
cbv zeta; rewrite size_map.
split.
  move=> o Ho; have [i _ ->] := In_map_seq Ho.
  rewrite honest_output_public all_map; apply/allP => j _.
  exact: honest_partial_verify.
split=> Hm; last exact: aggregate_honest_short.
exists (public_key (group_poly n t draw) * H msg).
split; first exact: (@aggregate_honest F g X H n t draw Ht HX msg m Hm).
move=> o Ho; have [i _ ->] := In_map_seq Ho.
rewrite honest_output_public; exact: verify_group_sig.
Qed.

(** C5: the phase barriers.  Whenever the three phases of [run_dkg] go
    through, all the [phase0.run]s (shares published) come before all the
    [phase1.run]s (responses published), which come before all the
    [phase2.run]s (outputs), and every node's group indices are all among
    the senders of the shares snapshot and of the responses snapshot passed
    on.  In the all-honest run the group has all [n] participants and both
    snapshots hold exactly the entries of senders [0 .. n-1]. *)
Theorem C5_phase_barriers (F : fieldType) (g : F) (X : nat -> F) (n t : nat)
    (draw : nat -> nat -> F) :
  (0 < t <= n)%N -> uniq [seq draw i 0%N * g | i <- iota 0 n] ->
  (forall board ps,
     match dkg_phases g X board ps with
     | None => True
     | Some r =>
         run_events r = [seq Phase1Done (p0_index p) | p <- ps] ++
                        [seq Phase2Done (p0_index p) | p <- ps] ++
                        [seq OutputDone (p0_index p) | p <- ps] /\
         all (fun p => all (fun i => (i \in map (@bs_dealer F) (run_shares r)) &&
                                     (i \in map br_share_idx (run_responses r)))
                           (group_indices (p0_group p))) ps
     end) /\
  match setup g n t draw with
  | None => False
  | Some (board, ps) =>
      map (@p0_index F) ps = iota 0 n /\
      (forall p, List.In p ps -> group_indices (p0_group p) = iota 0 n) /\
      match dkg_phases g X board ps with
      | None => False
      | Some r => map (@bs_dealer F) (run_shares r) = iota 0 n /\
                  map br_share_idx (run_responses r) = iota 0 n
      end
  end.
Proof.
move=> Ht Hpub; split.
  move=> board ps; case E: dkg_phases => [r|] //.
  by case: (dkg_phases_some E) => -> Hall _.
rewrite (@setup_honest F g n t draw Ht Hpub).
split; first by rewrite -map_comp -[RHS]map_id; apply: eq_map.
split; first by move=> p Hp; have [i _ ->] := In_map_seq Hp; exact: honest_group_indices.
have [ev ->] := @dkg_phases_honest F g X n t draw Ht.
by split; rewrite -!map_comp -[RHS]map_id; apply: eq_map.
Qed.

(** C8: in the all-honest run every [phase2.run] yields [Output] (one per
    participant); the [GoToPhase3] branch ([unreachable!] in [run_dkg]) is
    never taken. *)
Theorem C8_honest_no_phase3 (F : fieldType) (g : F) (X : nat -> F) (n t : nat)
    (draw : nat -> nat -> F) :
  (0 < t <= n)%N -> uniq [seq draw i 0%N * g | i <- iota 0 n] ->
  match setup g n t draw with
  | None => False
  | Some (board, ps) =>
      match dkg_phases g X board ps with
      | None => False
      | Some r =>
          size (run_results r) = n /\
          all (fun res => if res is Output _ then true else false) (run_results r)
      end
  end.
Proof.
move=> Ht Hpub; rewrite (@setup_honest F g n t draw Ht Hpub).
have [ev ->] := @dkg_phases_honest F g X n t draw Ht.
by rewrite /= size_map size_iota all_map; split=> //; apply/allP.
Qed.

(** C3: commitments for the outstanding [(group_index, epoch)] from all the
    members of a [Committing] group (the quorum policy is all [n] members),
    made in any order and with one and the same public key, are all
    accepted; the last one makes the group [Available] with the committers
    in commit order and the committed key as [public_key].  The committers
    are then fixed: every later [commit_dkg] is rejected without a state
    change.  In the demo run of [main] the five commits succeed and the
    group is [Available] with the five committers [0x0 .. 0x4]. *)
Theorem C3_quorum_available (F : fieldType) (R : Type) (c : Controller F R)
    (idx ep sz th : nat) (members ids : seq string) (pk : F) (ppk : string -> F)
    (g : F) (X : nat -> F) (H : string -> F) (der : F -> R) (draw : nat -> nat -> F) :
  (0 < sz)%N -> uniq members -> size members = sz -> perm_eq ids members ->
  uniq [seq draw i 0%N * g | i <- iota 0 5] -> uniq [seq X i | i <- iota 0 5] ->
  let c1 := set_group c (mkCGroup idx ep sz th Available (Some pk) members ids
                           [seq mkCommitEntry id pk (ppk id) [::] | id <- ids]) in
  (run_calls (@commit_step F R)
     (set_group c (mkCGroup idx ep sz th Committing None members [::] [::]))
     [seq (id, idx, ep, pk, ppk id) | id <- ids] = (nseq (size ids) true, c1) /\
   cg_state (c_group c1) = Available /\ cg_committers (c_group c1) = ids /\
   cg_public_key (c_group c1) = Some pk /\
   forall id gi ep' pk' ppk' d, commit_dkg c1 id gi ep' pk' ppk' d = (false, c1)) /\
  match main g X H der draw with
  | None => False
  | Some tr =>
      mt_commit_res tr = nseq 5 true /\ cg_state (mt_group tr) = Available /\
      cg_committers (mt_group tr) = map node_id (iota 0 5) /\
      size (cg_committers (mt_group tr)) = 5%nat
  end.
Proof.
move=> Hn Hum Hsm Hperm Hpub HX c1; split.
  have Hall : all (fun a => id a \in members) ids.
    by apply/allP => a Ha; rewrite -(perm_mem Hperm).
  have Hu' : uniq (map id ([::] ++ ids)) by rewrite map_id (perm_uniq Hperm).
  have Hsz : size ([::] ++ ids) = sz by rewrite (perm_size Hperm).
  have Hn' : (0 < size ids)%N by rewrite (perm_size Hperm) Hsm.
  have := @commit_loop F R string id ppk c idx ep sz th None members [::] ids pk Hn' Hu' Hall Hsz.
  rewrite cat0s !map_id => ->.
  by split=> //; split=> //; split=> //; split=> // *; apply: commit_dkg_closed.
have := @main_honest F g X H R der draw Hpub HX.
case: main => [tr|] // [_ [_ [_ [Hres [Hgr _]]]]].
by rewrite Hres Hgr.
Qed.

(** C4: [fulfill] on a task that is already [Fulfilled], or on a pending
    task with an aggregated signature that fails [verify] against the group
    public key and the task's message, returns [false] and leaves the
    controller unchanged; after a successful [fulfill] every further call
    for the same task index is rejected that way.  In the demo run of [main]
    only the first of the five [fulfill] calls succeeds and the one task
    ends [Fulfilled]. *)
Theorem C4_fulfill_rejects (F : fieldType) (R : Type) (g : F) (X : nat -> F)
    (H : string -> F) (der : F -> R) (draw : nat -> nat -> F) :
  uniq [seq draw i 0%N * g | i <- iota 0 5] -> uniq [seq X i | i <- iota 0 5] ->
  (forall (c : Controller F R) id index sig ps task,
     find_task (c_tasks c) index = Some (task, Fulfilled) ->
     fulfill g H der c id index sig ps = (false, c)) /\
  (forall (c : Controller F R) id index sig ps task pk,
     find_task (c_tasks c) index = Some (task, Pending) ->
     cg_public_key (c_group c) = Some pk ->
     ~~ verify g H pk (st_message task) sig ->
     fulfill g H der c id index sig ps = (false, c)) /\
  (forall (c c' : Controller F R) id index sig ps id' sig' ps',
     fulfill g H der c id index sig ps = (true, c') ->
     fulfill g H der c' id' index sig' ps' = (false, c')) /\
  match main g X H der draw with
  | None => False
  | Some tr =>
      mt_fulfill_res tr = [:: true; false; false; false; false] /\
      c_tasks (mt_controller tr) = [:: (mkSignatureTask 0 demo_msg 1, Fulfilled)]
  end.
Proof.
move=> Hpub HX; split.
  by move=> c id index sig ps task; case: (fulfill_rejects g H der c id index sig ps task 0).
split.
  by move=> c id index sig ps task pk; case: (fulfill_rejects g H der c id index sig ps task pk).
split; first by move=> *; apply: fulfill_twice; eassumption.
have := @main_honest F g X H R der draw Hpub HX.
by case: main => [tr|] // [_ [_ [_ [_ [_ [_ [Hf [Ht _]]]]]]]].
Qed.

(** C6: [get_last_output] fails with ["no output available"] in every state
    reached from a new controller by calls none of which is a successful
    [fulfill]; after a successful [fulfill] with aggregated signature [sig]
    it returns [derive_output sig], so two fulfillments with the same
    aggregated signature give the same output. *)
Theorem C6_last_output (F : fieldType) (R : Type) (g : F) (H : string -> F)
    (der : F -> R) (e : Z) :
  (forall c, ctl_steps_unfulfilled g H der (controller_new F R e) c ->
     get_last_output c = Err "no output available"%string) /\
  (forall (c c' : Controller F R) id index sig ps,
     fulfill g H der c id index sig ps = (true, c') -> get_last_output c' = Ok (der sig)) /\
  (forall (c1 c1' c2 c2' : Controller F R) id1 id2 index1 index2 sig ps1 ps2,
     fulfill g H der c1 id1 index1 sig ps1 = (true, c1') ->
     fulfill g H der c2 id2 index2 sig ps2 = (true, c2') ->
     get_last_output c1' = get_last_output c2').
Proof.
have Hok (c c' : Controller F R) id index sig ps :
    fulfill g H der c id index sig ps = (true, c') -> get_last_output c' = Ok (der sig).
  by case/fulfill_true => _ _; rewrite /get_last_output => ->.
split; first by move=> c /ctl_steps_unfulfilled_last_output; rewrite /get_last_output => ->.
split; first exact: Hok.
by move=> c1 c1' c2 c2' id1 id2 index1 index2 sig ps1 ps2 /Hok -> /Hok ->.
Qed.

(** C7: [register] of a [node_id] that is already registered returns
    [false] and changes nothing; while the group is [Forming], [register] of
    a fresh [node_id] succeeds and appends the node with the next index
    (the number of nodes registered before).  No call of the controller
    changes or removes a registered node, so from a new controller the
    indices are always [0, 1, ...] in registration order. *)
Theorem C7_register (F : fieldType) (R : Type) (g : F) (H : string -> F)
    (der : F -> R) (e : Z) :
  (forall (c : Controller F R) id pk u addr,
     id \in map (@id_address F) (c_nodes c) -> node_register c id pk u addr = (false, c)) /\
  (forall (c : Controller F R) id pk u addr,
     cg_state (c_group c) = Forming -> id \notin map (@id_address F) (c_nodes c) ->
     exists c', node_register c id pk u addr = (true, c') /\
       c_nodes c' = rcons (c_nodes c) (mkCNode id pk u addr (size (c_nodes c)))) /\
  (forall c c' : Controller F R, ctl_steps g H der c c' -> exists s, c_nodes c' = c_nodes c ++ s) /\
  (forall c, ctl_steps g H der (controller_new F R e) c ->
     map (@cnode_index F) (c_nodes c) = iota 0 (size (c_nodes c))).
Proof.
split; first exact: node_register_dup.
split; first by move=> c id pk u addr Hf; apply: node_register_fresh; rewrite Hf.
split; first exact: ctl_steps_nodes.
by move=> c Hs; apply/eqP; exact: (ctl_steps_indices Hs).
Qed.

(** C10: in the demo run of [main], with [output0] the first DKG output,
    the [i]-th [commit_dkg] call ([i] in [0 .. 4]) is made for node [0xi]
    on group 1, epoch 1, with the public key of [output0.public] and the
    partial public key [output0.public] evaluated at [i]; the same calls
    read, output by output, as the common public key and the share of that
    output times the base point. *)
Theorem C10_commit_calls (F : fieldType) (R : Type) (g : F) (X : nat -> F)
    (H : string -> F) (der : F -> R) (draw : nat -> nat -> F) :
  uniq [seq draw i 0%N * g | i <- iota 0 5] -> uniq [seq X i | i <- iota 0 5] ->
  match main g X H der draw with
  | None => False
  | Some tr =>
      match mt_outputs tr with
      | [::] => False
      | output0 :: _ =>
          mt_commit_calls tr =
            [seq (node_id i, 1%nat, 1%nat, public_key (out_public output0),
                  eval_value (poly_eval X (out_public output0) i)) | i <- iota 0 5] /\
          mt_commit_calls tr =
            [seq (node_id (share_index (out_share o)), 1%nat, 1%nat,
                  public_key (out_public output0), share_private (out_share o) * g)
            | o <- mt_outputs tr]
      end
  end.
Proof.
move=> Hpub HX; have := @main_honest F g X H R der draw Hpub HX.
case: main => [tr|] // [_ [Hout [Hcalls _]]].
rewrite (eq_map (@honest_output_eq F g X 5 3 draw)) in Hout.
move: Hout Hcalls; set q := group_poly 5 3 draw; clearbody q => Hout Hcalls.
rewrite Hcalls Hout /=; split=> //.
by rewrite !poly_eval_at_commit.
Qed.

(** ** Witnesses: the claims applied on the rationals, their hypotheses
    decided by evaluation *)

Lemma C1_witness :
  match setup rat_base 5 3 rat_draw with
  | None => False
  | Some (board, ps) =>
      match run_dkg rat_base rat_point board ps with
      | None => False
      | Some outs =>
          size outs = 5%nat /\
          (forall o, List.In o outs -> out_public o = commit rat_base (group_poly 5 3 rat_draw)) /\
          is_all_same [seq out_public o | o <- outs] = Some true
      end
  end.
Proof.
refine (@C1_honest_dkg_same_public _ rat_base rat_point 5 3 rat_draw _ _); by vm_compute.
Defined.

Lemma C2_witness :
  match setup rat_base 5 3 rat_draw with
  | None => False
  | Some (board, ps) =>
      match run_dkg rat_base rat_point board ps with
      | None => False
      | Some outs =>
          let partials := [seq partial_sign rat_hash (out_share o) demo_msg
                          | o <- mask [:: true; false; true; true] outs] in
          (forall o, List.In o outs ->
             all (partial_verify rat_base rat_point rat_hash (out_public o) demo_msg) partials) /\
          ((3 <= size partials)%N -> exists sig, aggregate rat_point 3 partials = Ok sig /\
             forall o, List.In o outs ->
               verify rat_base rat_hash (public_key (out_public o)) demo_msg sig) /\
          ((size partials < 3)%N ->
             aggregate rat_point 3 partials = Err (NotEnoughPartialSignatures (size partials) 3))
      end
  end.
Proof.
refine (@C2_threshold_aggregation _ rat_base rat_point rat_hash 5 3 rat_draw demo_msg
          [:: true; false; true; true] _ _ _); by vm_compute.
Defined.

Lemma C3_witness :
  let c1 := set_group (controller_new rat rat 0%Z)
              (mkCGroup 1 1 2 2 Available (Some rat_base) [:: "a"; "b"]%string [:: "b"; "a"]%string
                 [seq mkCommitEntry id rat_base rat_base [::] | id <- [:: "b"; "a"]%string]) in
  (run_calls (@commit_step rat rat)
     (set_group (controller_new rat rat 0%Z)
        (mkCGroup 1 1 2 2 Committing None [:: "a"; "b"]%string [::] [::]))
     [seq (id, 1%nat, 1%nat, rat_base, rat_base) | id <- [:: "b"; "a"]%string] =
     (nseq 2 true, c1) /\
   cg_state (c_group c1) = Available /\ cg_committers (c_group c1) = [:: "b"; "a"]%string /\
   cg_public_key (c_group c1) = Some rat_base /\
   forall id gi ep' pk' ppk' d, commit_dkg c1 id gi ep' pk' ppk' d = (false, c1)) /\
  match main rat_base rat_point rat_hash rat_derive rat_draw with
  | None => False
  | Some tr =>
      mt_commit_res tr = nseq 5 true /\ cg_state (mt_group tr) = Available /\
      cg_committers (mt_group tr) = map node_id (iota 0 5) /\
      size (cg_committers (mt_group tr)) = 5%nat
  end.
Proof.
refine (@C3_quorum_available rat rat (controller_new rat rat 0%Z) 1 1 2 2
          [:: "a"; "b"]%string [:: "b"; "a"]%string
          rat_base (fun _ => rat_base) rat_base rat_point rat_hash rat_derive rat_draw
          _ _ _ _ _ _); by vm_compute.
Defined.

Lemma C4_witness :
  (forall (c : Controller rat rat) id index sig ps task,
     find_task (c_tasks c) index = Some (task, Fulfilled) ->
     fulfill rat_base rat_hash rat_derive c id index sig ps = (false, c)) /\
  (forall (c : Controller rat rat) id index sig ps task pk,
     find_task (c_tasks c) index = Some (task, Pending) ->
     cg_public_key (c_group c) = Some pk ->
     ~~ verify rat_base rat_hash pk (st_message task) sig ->
     fulfill rat_base rat_hash rat_derive c id index sig ps = (false, c)) /\
  (forall (c c' : Controller rat rat) id index sig ps id' sig' ps',
     fulfill rat_base rat_hash rat_derive c id index sig ps = (true, c') ->
     fulfill rat_base rat_hash rat_derive c' id' index sig' ps' = (false, c')) /\
  match main rat_base rat_point rat_hash rat_derive rat_draw with
  | None => False
  | Some tr =>
      mt_fulfill_res tr = [:: true; false; false; false; false] /\
      c_tasks (mt_controller tr) = [:: (mkSignatureTask 0 demo_msg 1, Fulfilled)]
  end.
Proof.
refine (@C4_fulfill_rejects rat rat rat_base rat_point rat_hash rat_derive rat_draw _ _);
  by vm_compute.
Defined.

Lemma C5_witness :
  (forall board ps,
     match dkg_phases rat_base rat_point board ps with
     | None => True
     | Some r =>
         run_events r = [seq Phase1Done (p0_index p) | p <- ps] ++
                        [seq Phase2Done (p0_index p) | p <- ps] ++
                        [seq OutputDone (p0_index p) | p <- ps] /\
         all (fun p => all (fun i => (i \in map (@bs_dealer rat) (run_shares r)) &&
                                     (i \in map br_share_idx (run_responses r)))
                           (group_indices (p0_group p))) ps
     end) /\
  match setup rat_base 5 3 rat_draw with
  | None => False
  | Some (board, ps) =>
      map (@p0_index rat) ps = iota 0 5 /\
      (forall p, List.In p ps -> group_indices (p0_group p) = iota 0 5) /\
      match dkg_phases rat_base rat_point board ps with
      | None => False
      | Some r => map (@bs_dealer rat) (run_shares r) = iota 0 5 /\
                  map br_share_idx (run_responses r) = iota 0 5
      end
  end.
Proof.
refine (@C5_phase_barriers _ rat_base rat_point 5 3 rat_draw _ _); by vm_compute.
Defined.

Lemma C8_witness :
  match setup rat_base 5 3 rat_draw with
  | None => False
  | Some (board, ps) =>
      match dkg_phases rat_base rat_point board ps with
      | None => False
      | Some r =>
          size (run_results r) = 5%nat /\
          all (fun res => if res is Output _ then true else false) (run_results r)
      end
  end.
Proof.
refine (@C8_honest_no_phase3 _ rat_base rat_point 5 3 rat_draw _ _); by vm_compute.
Defined.

Lemma C10_witness :
  match main rat_base rat_point rat_hash rat_derive rat_draw with
  | None => False
  | Some tr =>
      match mt_outputs tr with
      | [::] => False
      | output0 :: _ =>
          mt_commit_calls tr =
            [seq (node_id i, 1%nat, 1%nat, public_key (out_public output0),
                  eval_value (poly_eval rat_point (out_public output0) i)) | i <- iota 0 5] /\
          mt_commit_calls tr =
            [seq (node_id (share_index (out_share o)), 1%nat, 1%nat,
                  public_key (out_public output0), share_private (out_share o) * rat_base)
            | o <- mt_outputs tr]
      end
  end.
Proof.
refine (@C10_commit_calls rat rat rat_base rat_point rat_hash rat_derive rat_draw _ _);
  by vm_compute.
Defined.

(** ** Further properties of the driver *)

(** X1: the node ids [String::from("0x") + &i.to_string()] that [main]
    uses for registration, commitment, the partial-signature map and
    [fulfill] are distinct for distinct indices: [node_id i == node_id j]
    exactly when [i == j]. *)
Lemma X1_node_id_eq i j : (node_id i == node_id j) = (i == j).
Proof. by apply/eqP/eqP => [/node_id_inj | ->]. Qed.

(** X2: [i.to_string()] is a non-empty string of decimal digits whose
    decimal value is [i]. *)
Lemma X2_nat_to_string_decimal n :
  nat_to_string n <> EmptyString /\
  all_digits (nat_to_string n) /\ decimal_value (nat_to_string n) 0 = n.
Proof.
have [Hv Hd] := nat_to_string_aux_value (ltnSn n).
split; last by split.
rewrite /nat_to_string [nat_to_string_aux _ _ _]/=; case: ifP => // _.
by rewrite nat_to_string_aux_app; case: (nat_to_string_aux _ _ _).
Qed.

(** X3: the map of partial signatures that [main] passes to [fulfill] has
    the keys [node_id 0, ..., node_id (k-1)] for [k] partial signatures,
    these keys are pairwise distinct (no insertion overwrites another), and
    its values are the partial signatures in order. *)
Lemma X3_partial_signatures_map (F : fieldType) (ps : seq (Eval F)) :
  map fst (partial_signatures_map ps) = map node_id (iota 0 (size ps)) /\
  map snd (partial_signatures_map ps) = ps /\
  uniq (map fst (partial_signatures_map ps)).
Proof.
have Hsz : size (iota 0 (size ps)) = size ps by rewrite size_iota.
have H1 : map fst (partial_signatures_map ps) = map node_id (iota 0 (size ps)).
  rewrite /partial_signatures_map -map_comp (@eq_map _ _ _ (node_id \o fst)) //.
  by rewrite map_comp; congr (map node_id _); exact: unzip1_zip (eq_leq Hsz).
split=> //; split.
  rewrite /partial_signatures_map -map_comp (@eq_map _ _ _ snd) //.
  exact: unzip2_zip (eq_leq (esym Hsz)).
by rewrite H1 (map_inj_uniq node_id_inj) iota_uniq.
Qed.

(** X4: [run_dkg] on an empty list of participants panics: [is_all_same]
    unwraps the first element of an empty iterator. *)
Lemma X4_run_dkg_empty (F : fieldType) (g : F) X (b : Board F) : run_dkg g X b [::] = None.
Proof. by []. Qed.

(** X5: when [run_dkg] returns (does not panic), its outputs are exactly
    the phase-2 results of the run, none of which is [GoToPhase3]; output
    [k] holds the share of index [p0_index] of the [k]-th participant;
    there was at least one participant; and all outputs carry the same
    public polynomial. *)
Lemma X5_run_dkg_some (F : fieldType) (g : F) X b (ps : seq (Phase0 F)) outs :
  run_dkg g X b ps = Some outs ->
  (exists r, dkg_phases g X b ps = Some r /\ run_results r = map (@Output F) outs) /\
  [seq share_index (out_share o) | o <- outs] = [seq p0_index p | p <- ps] /\
  ps <> [::] /\
  (forall o1 o2, List.In o1 outs -> List.In o2 outs -> out_public o1 = out_public o2).
Proof.
rewrite /run_dkg; case Ed: dkg_phases => [r|] //.
case Ec: collect_ok => [l|] //; case: ifP => // Hs [El]; subst l.
have Hr := collect_ok_outputs Ec.
have Hi := dkg_phases_index Ed; rewrite Hr -map_comp in Hi.
split; first by exists r.
split; first exact: Hi.
clear Ec; case: outs Hr Hi Hs => [|o0 outs] // Hr Hi /eqP [].
rewrite all_map => Hall.
split; first by move=> Eps; rewrite Eps in Hi.
have Hp o : List.In o (o0 :: outs) -> out_public o = out_public o0.
  by case=> [<- //|Ho]; apply/eqP; exact: (all_In Hall Ho).
by move=> o1 o2 /Hp -> /Hp ->.
Qed.

(** X6: [setup] panics exactly when the threshold is not admissible
    ([t = 0] or [t > n]) : [Group::new] rejects it; otherwise every
    participant finds its own public key in the group and [DKG::new]
    succeeds. *)
Lemma X6_setup_none (F : fieldType) (g : F) (n t : nat) (draw : nat -> nat -> F) :
  setup g n t draw = None <-> ~~ (0 < t <= n)%N.
Proof.
rewrite /setup /group_new size_map size_iota; case: ifP => Ht //.
have [l ->] : exists l, collect_ok [seq dkg_new g (draw i 0%N)
                     (mkGroup [seq mkNode j (draw j 0%N * g) | j <- iota 0 n] t)
                     [seq draw i k | k <- iota 1 t.-1] | i <- iota 0 n] = Some l.
  apply: collect_ok_some => i Hi; rewrite /dkg_new /=.
  have : has (fun nd => node_public nd == draw i 0%N * g)
             [seq mkNode j (draw j 0%N * g) | j <- iota 0 n].
    by rewrite has_map; apply/hasP; exists i => //=; rewrite eqxx.
  by rewrite has_find => ->; eexists.
by [].
Qed.

(** X7: with an admissible threshold and distinct public keys, [setup]
    returns an empty board and one phase-0 state per participant, where
    participant [i] has index [i], the public key [draw i 0 * g] of its key
    pair, the group of all [n] nodes with threshold [t], and a secret
    polynomial with [t] coefficients whose constant term is its private key
    [draw i 0]. *)
Lemma X7_setup_some (F : fieldType) (g : F) (n t : nat) (draw : nat -> nat -> F) :
  (0 < t <= n)%N -> uniq [seq draw i 0%N * g | i <- iota 0 n] ->
  exists ps, setup g n t draw = Some (board_new F, ps) /\
    map (@p0_index F) ps = iota 0 n /\
    map (@p0_public F) ps = [seq draw i 0%N * g | i <- iota 0 n] /\
    map (fun p => head 0 (p0_poly p)) ps = [seq draw i 0%N | i <- iota 0 n] /\
    (forall p, List.In p ps ->
       p0_group p = mkGroup [seq mkNode i (draw i 0%N * g) | i <- iota 0 n] t /\
       size (p0_poly p) = t).
Proof.
move=> Ht Hpub; exists (map (honest_phase0 g n t draw) (iota 0 n)).
rewrite (setup_honest Ht Hpub) -!map_comp; split=> //.
split; first by rewrite map_id.
split; first by [].
split; first by [].
move=> p Hp; have [i _ ->] := In_map_seq Hp; split=> //.
exact: (size_honest_poly draw Ht).
Qed.

(** X8: when the five public keys are distinct and so are the five
    evaluation points, [main] runs to its end without panicking; the
    aggregated signature is the group secret (the constant coefficient of
    the joint polynomial) times the hash of the message, it verifies under
    the group public key stored in the controller's group, and the final
    randomness output is [derive_output] of it. *)
Lemma X8_main_completes (F : fieldType) (g : F) (X : nat -> F) (H : string -> F)
    (R : Type) (der : F -> R) (draw : nat -> nat -> F) :
  uniq [seq draw i 0%N * g | i <- iota 0 5] -> uniq [seq X i | i <- iota 0 5] ->
  match main g X H der draw with
  | None => False
  | Some tr =>
      mt_sig tr = public_key (group_poly 5 3 draw) * H demo_msg /\
      cg_public_key (mt_group tr) = Some (public_key (commit g (group_poly 5 3 draw))) /\
      verify g H (public_key (commit g (group_poly 5 3 draw))) demo_msg (mt_sig tr) /\
      mt_output tr = der (mt_sig tr) /\
      c_last_output (mt_controller tr) = Some (der (mt_sig tr))
  end.
Proof.
move=> Hpub HX; have := main_honest H der Hpub HX.
case: main => // tr [_ [_ [_ [_ [-> [-> [_ [_ [-> ->]]]]]]]]].
split=> //; split=> //; split=> //.
by rewrite /verify public_key_commit mulrA [H demo_msg * _]mulrC eqxx.
Qed.

Lemma X5_witness :
  match setup rat_base 3 2 rat_draw with
  | None => False
  | Some (b, ps) =>
      exists outs, run_dkg rat_base rat_point b ps = Some outs /\
      (exists r, dkg_phases rat_base rat_point b ps = Some r /\ run_results r = map (@Output _) outs) /\
      [seq share_index (out_share o) | o <- outs] = [seq p0_index p | p <- ps] /\
      ps <> [::] /\
      (forall o1 o2, List.In o1 outs -> List.In o2 outs -> out_public o1 = out_public o2)
  end.
Proof.
have Hs : isSome (setup rat_base 3 2 rat_draw) by vm_compute.
have Hr : isSome (if setup rat_base 3 2 rat_draw is Some (b, ps)
                  then run_dkg rat_base rat_point b ps else None) by vm_compute.
case Es: (setup rat_base 3 2 rat_draw) Hs Hr => [[b ps]|] // _.
case E: run_dkg => [outs|] // _.
by exists outs; split=> //; exact: (X5_run_dkg_some E).
Defined.

Lemma X7_witness :
  (0 < 2 <= 3)%N /\ uniq [seq rat_draw i 0%N * rat_base | i <- iota 0 3] /\
  exists ps, setup rat_base 3 2 rat_draw = Some (board_new _, ps) /\
    map (@p0_index _) ps = iota 0 3 /\
    map (@p0_public _) ps = [seq rat_draw i 0%N * rat_base | i <- iota 0 3] /\
    map (fun p => head 0 (p0_poly p)) ps = [seq rat_draw i 0%N | i <- iota 0 3] /\
    (forall p, List.In p ps ->
       p0_group p = mkGroup [seq mkNode i (rat_draw i 0%N * rat_base) | i <- iota 0 3] 2 /\
       size (p0_poly p) = 2%N).
Proof.
split; first by [].
split; first by vm_compute.
refine (@X7_setup_some _ rat_base 3 2 rat_draw _ _); by vm_compute.
Defined.

Lemma X8_witness :
  uniq [seq rat_draw i 0%N * rat_base | i <- iota 0 5] /\ uniq [seq rat_point i | i <- iota 0 5] /\
  match main rat_base rat_point rat_hash rat_derive rat_draw with
  | None => False
  | Some tr =>
      mt_sig tr = public_key (group_poly 5 3 rat_draw) * rat_hash demo_msg /\
      cg_public_key (mt_group tr) = Some (public_key (commit rat_base (group_poly 5 3 rat_draw))) /\
      verify rat_base rat_hash (public_key (commit rat_base (group_poly 5 3 rat_draw))) demo_msg (mt_sig tr) /\
      mt_output tr = rat_derive (mt_sig tr) /\
      c_last_output (mt_controller tr) = Some (rat_derive (mt_sig tr))
  end.
Proof.
split; first by vm_compute.
split; first by vm_compute.
refine (@X8_main_completes _ rat_base rat_point rat_hash _ rat_derive rat_draw _ _); by vm_compute.
Defined.
